(** * Audacity preferences: cached settings and setting scopes

    A shallow embedding of [libraries/lib-preferences/Prefs.h]:
    the class template [Setting<T>] (cache, default value, read, write,
    commit and rollback), the scope classes [SettingScope] and
    [SettingTransaction], and the constructors of [ChoiceSetting],
    [EnumSettingBase] and [EnumSetting<Enum>].

    Objects live in a heap indexed by their address, the two globals
    [gPrefs] and [SettingScope::sCurrent] are fields of the process state,
    and member functions are computations in a state-and-fault monad that
    take [this] as their first argument. *)

From stdpp Require Import base option list gmap strings.
From Stdlib Require Import ZArith Lia Floats.

Local Open Scope Z_scope.
Local Open Scope string_scope.
Local Open Scope list_scope.

(** ** The configuration object

    [wxConfigBase] is an abstract class of wxWidgets; [Setting<T>] uses its
    members [Read(key, &value)], [ReadObject(key, default)], [Write(key, value)]
    and the transaction uses [Flush()].  The interface is kept abstract: a
    configuration is any type with these operations.  [Read] is a [const]
    member and leaves the configuration as it is; [Write] and [Flush] return
    their success flag with the new state of the configuration. *)

Class ConfigBase (T Config : Type) := {
  cfgRead : Config -> string -> option T;
  cfgWrite : Config -> string -> T -> bool * Config;
  cfgFlush : Config -> bool * Config
}.

(** Every call made on the configuration object is recorded, oldest first.
    The record is ghost state: no member function reads it. *)
Inductive Call (T : Type) :=
| CallRead (key : string)
| CallWrite (key : string) (value : T) (ok : bool)
| CallFlush (ok : bool).
Arguments CallRead {T} key.
Arguments CallWrite {T} key value ok.
Arguments CallFlush {T} ok.

Definition isWriteTo {T} (key : string) (c : Call T) : bool :=
  match c with CallWrite k _ _ => bool_decide (k = key) | _ => false end.

Definition isRead {T} (c : Call T) : bool :=
  match c with CallRead _ => true | _ => false end.

(** ** Faults

    A failed [assert] stops the program; following a pointer to no object is
    outside the model. *)
Inductive Fault := AssertionFailed | NoSuchObject.

Inductive result (W A : Type) :=
| Done (a : A) (w : W)
| Stop (f : Fault).
Arguments Done {W A} a w.
Arguments Stop {W A} f.

(** [T{}], the value-initialised [T]. *)
Class ValueInit (T : Type) := value_init : T.

(** [operator!=] of [T].  For [bool], [int] and [wxString] it is the
    negation of equality; for [double] it is the comparison of IEEE 754,
    under which a NaN differs from every value, itself included.  No law is
    assumed of it. *)
Class NotEqual (T : Type) := not_equal : T -> T -> bool.

(** [SettingScope::AddResult] *)
Inductive AddResult := NotAdded | Added | PreviouslyAdded.

Abbreviation addr := nat.

(** ** Choice and enumeration settings: the objects *)

(** [EnumValueSymbol] is a [ComponentInterfaceSymbol]: an internal code
    string with a user-visible name. *)
Record EnumValueSymbol := mkSymbol {
  Internal : string;
  Msgid : string
}.

(** The data members of [ChoiceSetting].  [mpOtherSettings] is null or the
    address of the setting the key was taken from. *)
Record ChoiceSetting := mkChoiceSetting {
  mKey : string;
  mSymbols : list EnumValueSymbol;
  mpOtherSettings : option addr;
  mMigrated : bool;
  mDefaultSymbol : Z
}.

(** [EnumSettingBase]: the [ChoiceSetting] base subobject, the table of
    integer codes and the old key. *)
Record EnumSettingBase := mkEnumSettingBase {
  base : ChoiceSetting;
  mIntValues : list Z;
  mOldKey : string
}.

(** The [Key] argument of the constructors of [EnumSettingBase] and
    [EnumSetting<Enum>]: a string, or a reference to another setting. *)
Inductive Key :=
| KeyPath (path : string)
| KeySetting (setting : addr).

(** [static_cast<long>] of a [size_t], [long] and [size_t] being 64 bits
    wide: the value wraps into the signed range. *)
Definition to_long (n : Z) : Z := (n + 2 ^ 63) mod 2 ^ 64 - 2 ^ 63.

(** [size()] of a vector. *)
Definition vector_size {A} (v : list A) : Z := Z.of_nat (length v).

(** The two tables of an enumeration setting have the same rows. *)
Definition aligned (e : EnumSettingBase) : Prop :=
  length (mIntValues e) = length (mSymbols (base e)) /\
  forall i : nat,
    is_Some (mIntValues e !! i) <-> is_Some (mSymbols (base e) !! i).

(** An enumeration type converts to [int]. *)
Class EnumToInt (Enum : Type) := static_cast_int : Enum -> Z.

(** Modelled from the spec: the member functions of [ChoiceSetting] and
    [EnumSettingBase] are declared in Prefs.h and defined in Prefs.cpp.  Of
    the members of the object, a read that migrates marks the migration as
    performed ([mMigrated]), and [SetDefault(value)], whose precondition in
    the header is [value < GetSymbols().size()], replaces the default row;
    the tables and the keys are read only. *)
Inductive Mutation :=
| MarkMigrated
| SetDefault (value : Z).

Definition mutate (e : EnumSettingBase) (m : Mutation) : EnumSettingBase :=
  let b := base e in
  match m with
  | MarkMigrated =>
      mkEnumSettingBase
        (mkChoiceSetting (mKey b) (mSymbols b) (mpOtherSettings b) true
                         (mDefaultSymbol b))
        (mIntValues e) (mOldKey e)
  | SetDefault value =>
      if bool_decide (value < to_long (vector_size (mSymbols b))) then
        mkEnumSettingBase
          (mkChoiceSetting (mKey b) (mSymbols b) (mpOtherSettings b)
                           (mMigrated b) value)
          (mIntValues e) (mOldKey e)
      else e
  end.

Section Settings.

Context {T : Type} {T_ne : NotEqual T} `{ValueInit T}.
Context {Config : Type} `{ConfigBase T Config}.

(** ** Objects *)

(** The data members of [Setting<T>] with those of its bases [SettingBase]
    ([mPath]) and [CachingSettingBase<T>] ([mCurrentValue], [mValid]).
    [mFunction] is an empty or a callable [std::function<T()>]; the callable
    is taken to compute its value without changing the settings, the scope
    or the store, and to return the same value at every call. *)
Record Setting := mkSetting {
  mPath : string;
  mCurrentValue : T;
  mValid : bool;
  mFunction : option (unit -> T);
  mDefaultValue : T;
  mPreviousValue : T
}.

Definition set_mCurrentValue (v : T) (s : Setting) : Setting :=
  mkSetting (mPath s) v (mValid s) (mFunction s) (mDefaultValue s)
            (mPreviousValue s).
Definition set_mValid (b : bool) (s : Setting) : Setting :=
  mkSetting (mPath s) (mCurrentValue s) b (mFunction s) (mDefaultValue s)
            (mPreviousValue s).
Definition set_mDefaultValue (v : T) (s : Setting) : Setting :=
  mkSetting (mPath s) (mCurrentValue s) (mValid s) (mFunction s) v
            (mPreviousValue s).
Definition set_mPreviousValue (v : T) (s : Setting) : Setting :=
  mkSetting (mPath s) (mCurrentValue s) (mValid s) (mFunction s)
            (mDefaultValue s) v.

(** The data members of [SettingScope]; [mPending] is a
    [std::set<TransactionalSettingBase*>]. *)
Record SettingScope := mkScope {
  mPending : gset nat;
  mCommitted : bool
}.

(** ** The state of the process *)
Record World := mkWorld {
  gPrefs : option Config;            (* null or the configuration object *)
  sCurrent : option SettingScope;    (* [SettingScope::sCurrent] and its target *)
  objects : gmap nat Setting;        (* the settings, by address *)
  calls : list (Call T)              (* ghost: calls made on the configuration *)
}.

Definition set_gPrefs (c : option Config) (w : World) : World :=
  mkWorld c (sCurrent w) (objects w) (calls w).
Definition set_sCurrent (sc : option SettingScope) (w : World) : World :=
  mkWorld (gPrefs w) sc (objects w) (calls w).
Definition set_objects (o : gmap nat Setting) (w : World) : World :=
  mkWorld (gPrefs w) (sCurrent w) o (calls w).
Definition set_calls (l : list (Call T)) (w : World) : World :=
  mkWorld (gPrefs w) (sCurrent w) (objects w) l.

(** The state with the object at [a] replaced, and with one more call on
    record. *)
Definition upd (a : addr) (s : Setting) (w : World) : World :=
  set_objects (<[a := s]> (objects w)) w.
Definition log (c : Call T) (w : World) : World :=
  set_calls (calls w ++ [c]) w.

(** The value [GetDefault] resolves to: the result of the default-computing
    function when there is one, else the stored default. *)
Definition resolved (s : Setting) : T :=
  match mFunction s with
  | Some f => f tt
  | None => mDefaultValue s
  end.

(** The object once [GetDefault] has stored the resolved default in it. *)
Definition defaulted (s : Setting) : Setting :=
  set_mDefaultValue (resolved s) s.

(** No scope is pending: there is none, or it is committed. *)
Definition idle (w : World) : bool :=
  match sCurrent w with
  | None => true
  | Some sc => mCommitted sc
  end.

(** The state with the setting at [a] staged in the pending scope [sc]. *)
Definition staged (a : addr) (sc : SettingScope) (w : World) : World :=
  set_sCurrent (Some (mkScope ({[a]} ∪ mPending sc) (mCommitted sc))) w.

(** What a read of the store yields for the setting [s] against the
    default [d], and the object once that value is cached. *)
Definition fetched (c : Config) (s : Setting) (d : T) : T :=
  default d (cfgRead c (mPath s)).
Definition cached (c : Config) (s : Setting) (d : T) : Setting :=
  set_mValid (not_equal (fetched c s d) d)
             (set_mCurrentValue (fetched c s d) s).

(** The value a [Read()] of the setting [s] returns when the global
    [gPrefs] is [g]. *)
Definition visible (g : option Config) (s : Setting) : T :=
  if mValid s then mCurrentValue s
  else match g with
       | Some c => fetched c s (resolved s)
       | None => value_init
       end.

(** ** The monad of member functions *)
Definition M (A : Type) : Type := World -> result World A.

Definition ret {A} (a : A) : M A := fun w => Done a w.

Definition bind {A B} (m : M A) (k : A -> M B) : M B :=
  fun w => match m w with
           | Done a w' => k a w'
           | Stop f => Stop f
           end.

Notation "x <- c1 ;; c2" := (bind c1 (fun x => c2))
  (at level 20, c1 at level 99, c2 at level 200, only parsing).
Notation "c1 ;; c2" := (bind c1 (fun _ => c2))
  (at level 100, c2 at level 200, only parsing, right associativity).

Definition assert (b : bool) : M unit :=
  fun w => if b then Done tt w else Stop AssertionFailed.

(** [*this] read as a whole, and one member of it assigned. *)
Definition load (this : addr) : M Setting :=
  fun w => match objects w !! this with
           | Some s => Done s w
           | None => Stop NoSuchObject
           end.

Definition assign (this : addr) (f : Setting -> Setting) : M unit :=
  fun w => match objects w !! this with
           | Some s => Done tt (upd this (f s) w)
           | None => Stop NoSuchObject
           end.

(** Modelled from the spec: [SettingBase::GetConfig] is declared in Prefs.h
    and defined in Prefs.cpp; it yields the attached configuration store, or
    null when no backend is attached (the global [gPrefs]). *)
Definition GetConfig (this : addr) : M (option Config) :=
  fun w => Done (gPrefs w) w.

(** Calls on the configuration object [*gPrefs].  [ReadObject(key,
    defaultValue)] returns the value read under the key, or [defaultValue]
    when there is none. *)
Definition config_ReadObject (key : string) (defaultValue : T) : M T :=
  fun w => match gPrefs w with
           | Some c =>
               Done (default defaultValue (cfgRead c key))
                    (log (CallRead key) w)
           | None => Stop NoSuchObject
           end.

Definition config_Write (key : string) (value : T) : M bool :=
  fun w => match gPrefs w with
           | Some c =>
               let (ok, c') := cfgWrite c key value in
               Done ok (log (CallWrite key value ok) (set_gPrefs (Some c') w))
           | None => Stop NoSuchObject
           end.

Definition config_Flush : M bool :=
  fun w => match gPrefs w with
           | Some c =>
               let (ok, c') := cfgFlush c in
               Done ok (log (CallFlush ok) (set_gPrefs (Some c') w))
           | None => Stop NoSuchObject
           end.

(** ** [Setting<T>] *)

(** [const T& GetDefault() const] *)
Definition GetDefault (this : addr) : M T :=
  s <- load this ;;
  match mFunction s with
  | Some function => assign this (set_mDefaultValue (function tt))
  | None => ret tt
  end ;;
  s' <- load this ;;
  ret (mDefaultValue s').

(** [T ReadWithDefault(const T &defaultValue) const] *)
Definition ReadWithDefault (this : addr) (defaultValue : T) : M T :=
  s <- load this ;;
  if mValid s then ret (mCurrentValue s)
  else
    config <- GetConfig this ;;
    match config with
    | Some _ =>
        v <- config_ReadObject (mPath s) defaultValue ;;
        assign this (set_mCurrentValue v) ;;
        (* If config file contains a value that agrees with the default, we
           can't detect that, so assume invalidity still *)
        s1 <- load this ;;
        assign this
          (set_mValid (not_equal (mCurrentValue s1) defaultValue)) ;;
        s2 <- load this ;;
        ret (mCurrentValue s2)
    | None => ret value_init
    end.

(** [T Read() const] *)
Definition Read (this : addr) : M T :=
  d <- GetDefault this ;;
  ReadWithDefault this d.

(** Modelled from the spec: [SettingScope::Add] is declared in Prefs.h and
    defined in Prefs.cpp.  Its documentation in the header: [NotAdded] if
    there is no pending (and uncommitted) scope; [PreviouslyAdded] if there
    is one, but the given setting object was already added since it began;
    else [Added] (and the setting joins the pending set). *)
Definition SettingScope_Add (setting : addr) : M AddResult :=
  fun w => match sCurrent w with
           | None => Done NotAdded w
           | Some sc =>
               if mCommitted sc then Done NotAdded w
               else if bool_decide (setting ∈ mPending sc)
               then Done PreviouslyAdded w
               else Done Added (staged setting sc w)
           end.

(** [bool DoWrite()] *)
Definition DoWrite (this : addr) : M bool :=
  config <- GetConfig this ;;
  s <- load this ;;
  ok <- match config with
        | Some _ => config_Write (mPath s) (mCurrentValue s)
        | None => ret false
        end ;;
  assign this (set_mValid ok) ;;
  s' <- load this ;;
  ret (mValid s').

(** [bool Write(const T &value)] *)
Definition Write (this : addr) (value : T) : M bool :=
  r <- SettingScope_Add this ;;
  match r with
  | NotAdded =>
      (* Eager writes, but not flushed, when there is no transaction *)
      config <- GetConfig this ;;
      match config with
      | Some _ =>
          assign this (set_mCurrentValue value) ;;
          DoWrite this
      | None => ret false
      end
  | Added =>
      (* Deferred writes, with flush, if there is a commit later *)
      v <- Read this ;;
      assign this (set_mPreviousValue v) ;;
      (* fallthrough *)
      assign this (set_mCurrentValue value) ;;
      ret true
  | PreviouslyAdded =>
      assign this (set_mCurrentValue value) ;;
      ret true
  end.

(** [bool Reset()] *)
Definition Reset (this : addr) : M bool :=
  d <- GetDefault this ;;
  Write this d.

(** [bool Commit() override] *)
Definition Commit (this : addr) : M bool := DoWrite this.

(** [void Invalidate() override] *)
Definition Invalidate (this : addr) : M unit :=
  assign this (set_mValid false).

(** [void Rollback() noexcept override] *)
Definition Rollback (this : addr) : M unit :=
  s <- load this ;;
  assign this (set_mCurrentValue (mPreviousValue s)).

(** The two constructors of [Setting<T>], building the object at [this]:
    the members without an initialiser in the constructor take their default
    member initialisers ([mCurrentValue{}], [mValid{false}],
    [mDefaultValue{}], [mPreviousValue{}]). *)
Definition Setting_ctor (this : addr) (path : string) (defaultValue : T)
  : M unit :=
  fun w => Done tt
    (upd this (mkSetting path value_init false None defaultValue value_init) w).

Definition Setting_ctor_function (this : addr) (path : string)
    (function : unit -> T) : M unit :=
  fun w => Done tt
    (upd this
       (mkSetting path value_init false (Some function) value_init value_init)
       w).

(** ** Constructors of [ChoiceSetting], [EnumSettingBase], [EnumSetting] *)

(** [ChoiceSetting(TransactionalSettingBase &key, EnumValueSymbols symbols,
    long defaultSymbol = -1)] *)
Definition ChoiceSetting_ctor_setting (key : addr)
    (symbols : list EnumValueSymbol) (defaultSymbol : Z) : M ChoiceSetting :=
  k <- load key ;;
  let this := mkChoiceSetting (mPath k) symbols (Some key) false defaultSymbol in
  assert (bool_decide (defaultSymbol < to_long (vector_size (mSymbols this)))) ;;
  ret this.

(** [ChoiceSetting(const SettingBase &key, EnumValueSymbols symbols,
    long defaultSymbol = -1)]; the [SettingBase] is given by its path. *)
Definition ChoiceSetting_ctor_path (key : string)
    (symbols : list EnumValueSymbol) (defaultSymbol : Z) : M ChoiceSetting :=
  let this := mkChoiceSetting key symbols None false defaultSymbol in
  assert (bool_decide (defaultSymbol < to_long (vector_size (mSymbols this)))) ;;
  ret this.

Definition ChoiceSetting_ctor (key : Key) (symbols : list EnumValueSymbol)
    (defaultSymbol : Z) : M ChoiceSetting :=
  match key with
  | KeyPath path => ChoiceSetting_ctor_path path symbols defaultSymbol
  | KeySetting a => ChoiceSetting_ctor_setting a symbols defaultSymbol
  end.

(** [EnumSettingBase(Key &&key, EnumValueSymbols symbols, long defaultSymbol,
    std::vector<int> intValues, const wxString &oldKey = {})] *)
Definition EnumSettingBase_ctor (key : Key) (symbols : list EnumValueSymbol)
    (defaultSymbol : Z) (intValues : list Z) (oldKey : string)
  : M EnumSettingBase :=
  b <- ChoiceSetting_ctor key symbols defaultSymbol ;;
  let this := mkEnumSettingBase b intValues oldKey in
  assert (bool_decide (vector_size (mIntValues this)
                       = vector_size (mSymbols (base this)))) ;;
  ret this.

(** [EnumSetting(Key &&key, EnumValueSymbols symbols, long defaultSymbol,
    std::vector<Enum> values, const wxString &oldKey = {})] *)
Definition EnumSetting_ctor {Enum} `{EnumToInt Enum} (key : Key)
    (symbols : list EnumValueSymbol) (defaultSymbol : Z)
    (values : list Enum) (oldKey : string) : M EnumSettingBase :=
  EnumSettingBase_ctor key symbols defaultSymbol
    (map static_cast_int values) oldKey.

(** The key names an object: a path always does, a reference does when a
    setting lives at the address. *)
Definition Key_ok (key : Key) (w : World) : Prop :=
  match key with
  | KeyPath _ => True
  | KeySetting a => is_Some (objects w !! a)
  end.

(** ** [SettingScope] and [SettingTransaction] *)

Fixpoint for_each {A} (body : A -> M unit) (l : list A) : M unit :=
  match l with
  | [] => ret tt
  | x :: l' => body x ;; for_each body l'
  end.

(** Modelled from the spec: the constructor of [SettingScope] is defined in
    Prefs.cpp.  Beginning a scope fails if another scope is already active;
    otherwise the new scope, with nothing staged and not committed, takes
    the global slot. *)
Definition SettingScope_ctor : M unit :=
  fun w => match sCurrent w with
           | None => Done tt (set_sCurrent (Some (mkScope ∅ false)) w)
           | Some _ => Stop AssertionFailed
           end.

(** Modelled from the spec: the destructor of [SettingScope] is defined in
    Prefs.cpp.  Destruction without a prior successful commit rolls back
    every staged setting (cache only, no store I/O) and releases the global
    active-scope slot. *)
Definition SettingScope_dtor : M unit :=
  fun w => match sCurrent w with
           | None => Stop NoSuchObject
           | Some sc =>
               (if mCommitted sc then ret tt
                else for_each Rollback (elements (mPending sc)))
                 (set_sCurrent None w)
           end.

(** The commit operation of every setting of the list is invoked; the
    result tells whether all succeeded. *)
Fixpoint commit_each (l : list addr) : M bool :=
  match l with
  | [] => ret true
  | p :: l' =>
      ok <- Commit p ;;
      rest <- commit_each l' ;;
      ret (ok && rest)
  end.

(** Modelled from the spec: [SettingTransaction::Commit] is declared in
    Prefs.h and defined in Prefs.cpp.  For every staged setting, invoke its
    commit operation; if all succeed, flush the store once and mark the
    scope committed, returning true; if any commit fails, report failure
    without rolling back the settings already committed. *)
Definition SettingTransaction_Commit : M bool :=
  fun w => match sCurrent w with
           | None => Stop NoSuchObject
           | Some sc =>
               (ok <- commit_each (elements (mPending sc)) ;;
                if ok then
                  config_Flush ;;
                  (fun w' => Done true
                     (set_sCurrent (Some (mkScope (mPending sc) true)) w'))
                else ret false) w
           end.

(** ** The overloads of [Read] that report whether the value was defined *)

Definition nonnull {A} (p : option A) : bool :=
  match p with Some _ => true | None => false end.

(** [config->Read(key, &value)]: when the key is present its value is
    assigned through the pointer, here by [store_value], and the result is
    true; when it is absent nothing is assigned and the result is false. *)
Definition config_Read (key : string) (store_value : T -> M unit) : M bool :=
  fun w => match gPrefs w with
           | Some c =>
               match cfgRead c key with
               | Some v =>
                   (store_value v ;; ret true) (log (CallRead key) w)
               | None => Done false (log (CallRead key) w)
               end
           | None => Stop NoSuchObject
           end.

(** [bool ReadWithDefault(T *pVar, const T &defaultValue) const].  [pVar] is
    null ([None]) or points to a variable of the caller, outside the
    setting, given by its content; the result carries the content of that
    variable at return. *)
Definition ReadWithDefault_pVar (this : addr) (pVar : option T)
    (defaultValue : T) : M (bool * option T) :=
  let var := if nonnull pVar then Some defaultValue else None in
  s <- load this ;;
  if nonnull pVar && mValid s then ret (true, Some (mCurrentValue s))
  else
    config <- GetConfig this ;;
    if nonnull pVar && nonnull config then
      found <- config_Read (mPath s)
                 (fun v => assign this (set_mCurrentValue v)) ;;
      assign this (set_mValid found) ;;
      s1 <- load this ;;
      if mValid s1 then ret (mValid s1, Some (mCurrentValue s1))
      else ret (mValid s1, var)
    else
      assign this (set_mValid false) ;;
      ret (false, var).

(** [bool Read(T *pVar) const] *)
Definition Read_pVar (this : addr) (pVar : option T) : M (bool * option T) :=
  d <- GetDefault this ;;
  ReadWithDefault_pVar this pVar d.

(** ** Sequences of calls *)

(** The public member functions of [Setting<T>]. *)
Inductive Method :=
| m_GetDefault
| m_Read
| m_ReadWithDefault (defaultValue : T)
| m_Read_pVar (pVar : option T)
| m_ReadWithDefault_pVar (pVar : option T) (defaultValue : T)
| m_Write (value : T)
| m_Reset
| m_Commit
| m_Invalidate
| m_Rollback.

(** The call of a member function on the setting at [this], its result
    dropped. *)
Definition invoke (this : addr) (m : Method) : M unit :=
  match m with
  | m_GetDefault => GetDefault this ;; ret tt
  | m_Read => Read this ;; ret tt
  | m_ReadWithDefault d => ReadWithDefault this d ;; ret tt
  | m_Read_pVar pVar => Read_pVar this pVar ;; ret tt
  | m_ReadWithDefault_pVar pVar d => ReadWithDefault_pVar this pVar d ;; ret tt
  | m_Write v => Write this v ;; ret tt
  | m_Reset => Reset this ;; ret tt
  | m_Commit => Commit this ;; ret tt
  | m_Invalidate => Invalidate this
  | m_Rollback => Rollback this
  end.

Definition invoke_all (l : list (addr * Method)) : M unit :=
  for_each (fun '(this, m) => invoke this m) l.

(** The member functions other than [Write], [Reset] and [Commit]. *)
Definition reads_only (m : Method) : bool :=
  match m with
  | m_Write _ | m_Reset | m_Commit => false
  | _ => true
  end.


(** The values of the list written one after the other. *)
Definition Write_all (this : addr) (values : list T) : M unit :=
  for_each (fun v => Write this v ;; ret tt) values.

(** The object [s'] is the object [s] at a later time: the path, the
    default-computing function and the resolved default are the same. *)
Definition same_identity (s s' : Setting) : Prop :=
  mPath s' = mPath s /\ mFunction s' = mFunction s /\ resolved s' = resolved s.

(** The state [w'] differs from [w] in the object at [this], which keeps
    its identity, in the calls on record, and, unless [quiet], in the store
    and the scope; when [quiet] the new calls are reads. *)
Definition effect_on (this : addr) (quiet : bool) (w w' : World) : Prop :=
  exists s s' l,
    objects w !! this = Some s /\
    objects w' = <[this := s']> (objects w) /\
    calls w' = calls w ++ l /\
    same_identity s s' /\
    (quiet = true ->
     gPrefs w' = gPrefs w /\ sCurrent w' = sCurrent w /\
     forallb isRead l = true).

(** The computation [m], run where a setting lives at [this], returns and
    has no other effect than [effect_on] allows. *)
Definition performs {A} (this : addr) (quiet : bool) (m : M A) : Prop :=
  forall w, is_Some (objects w !! this) ->
    exists a w', m w = Done a w' /\ effect_on this quiet w w'.

(** The sequence of the rollback round trip on the setting at [A]: a scope
    begins, [orig] is read, [v] is written, the scope is destroyed, and the
    setting is read again. *)
Definition rollback_round_trip (A : addr) (v : T) : M (T * T) :=
  SettingScope_ctor ;;
  orig <- Read A ;;
  Write A v ;;
  SettingScope_dtor ;;
  after <- Read A ;;
  ret (orig, after).

(** The same sequence with [SettingTransaction::Commit] called before the
    scope is destroyed; the result of the commit is returned between the
    two values read. *)
Definition rollback_round_trip_Commit (A : addr) (v : T)
    : M (T * bool * T) :=
  SettingScope_ctor ;;
  orig <- Read A ;;
  Write A v ;;
  ok <- SettingTransaction_Commit ;;
  SettingScope_dtor ;;
  after <- Read A ;;
  ret (orig, ok, after).

End Settings.

Arguments Setting T : clear implicits.
Arguments SettingScope : clear implicits.
Arguments World T Config : clear implicits.
Arguments M T Config A : clear implicits.
Arguments Method T : clear implicits.

(** ** A configuration held in memory

    An instance of the configuration interface for integer settings: a
    finite map from keys to values, a set of keys that refuse to be written,
    and a flag telling whether flushing succeeds. *)
Record MemConfig := mkMemConfig {
  entries : gmap string Z;
  refused : gset string;
  flushes : bool
}.

#[export] Instance MemConfig_ConfigBase : ConfigBase Z MemConfig := {
  cfgRead c key := entries c !! key;
  cfgWrite c key value :=
    if bool_decide (key ∈ refused c) then (false, c)
    else (true, mkMemConfig (<[key := value]> (entries c)) (refused c)
                            (flushes c));
  cfgFlush c := (flushes c, c)
}.

#[export] Instance Z_ValueInit : ValueInit Z := 0.

(** [operator!=] of [int]. *)
#[export] Instance Z_NotEqual : NotEqual Z := fun x y => negb (Z.eqb x y).

(** ** Concrete states

    Integer settings over the in-memory configuration. *)

Definition emptyWorld (g : option MemConfig) : World Z MemConfig :=
  mkWorld g None ∅ [].

(** An empty store; a store that holds 5 under "/GUI/A"; a store that
    refuses writes to "/GUI/B". *)
Definition storeEmpty : MemConfig := mkMemConfig ∅ ∅ true.
Definition storeA5 : MemConfig := mkMemConfig {["/GUI/A" := 5]} ∅ true.
Definition storeNoB : MemConfig := mkMemConfig ∅ {["/GUI/B"]} true.

(** Two [IntSetting]s as their constructor leaves them, with defaults 5
    and 3. *)
Definition settingA : Setting Z := mkSetting "/GUI/A" 0 false None 5 0.
Definition settingB : Setting Z := mkSetting "/GUI/B" 0 false None 3 0.

(** The state after the construction of the setting at address 1, and of
    the settings at addresses 1 and 2. *)
Definition worldA (g : option MemConfig) : World Z MemConfig :=
  mkWorld g None {[1%nat := settingA]} [].
Definition worldAB (g : option MemConfig) : World Z MemConfig :=
  mkWorld g None (<[2%nat := settingB]> {[1%nat := settingA]}) [].

(** A table of two symbols. *)
Definition twoSymbols : list EnumValueSymbol :=
  [mkSymbol "linear" "Linear"; mkSymbol "dB" "Logarithmic"].

(** The store once 9 is written under "/GUI/A". *)
Definition storeA9 : MemConfig := mkMemConfig {["/GUI/A" := 9]} ∅ true.

(** A scope has begun over the empty store. *)
Definition worldScope : World Z MemConfig :=
  mkWorld (Some storeEmpty) (Some (mkScope ∅ false)) {[1%nat := settingA]} [].

(** In a scope over the store that refuses "/GUI/B", 9 is staged for the
    first setting and 7 for the second. *)
Definition worldStaged : World Z MemConfig :=
  mkWorld (Some storeNoB) (Some (mkScope {[1%nat; 2%nat]} false))
    (<[2%nat := mkSetting "/GUI/B" 7 false None 3 3]>
       {[1%nat := mkSetting "/GUI/A" 9 false None 5 5]})
    [CallRead "/GUI/A"; CallRead "/GUI/B"].

(** A store that holds 8 under "/GUI/A", and one that moreover refuses
    writes to that key. *)
Definition storeA8 : MemConfig := mkMemConfig {["/GUI/A" := 8]} ∅ true.
Definition storeA8_refusing : MemConfig :=
  mkMemConfig {["/GUI/A" := 8]} {["/GUI/A"]} true.

(** The first setting with 4 cached as valid, alone, and beside a fresh
    second setting declared on the same path. *)
Definition settingA_cached : Setting Z := mkSetting "/GUI/A" 4 true None 5 0.
Definition worldCached (g : option MemConfig) : World Z MemConfig :=
  mkWorld g None {[1%nat := settingA_cached]} [].

(** Three sequences of calls: on both settings; on the first only, reads;
    on the second only. *)
Definition callsBoth : list (nat * Method Z) :=
  [(1%nat, m_Read); (2%nat, m_Write 7); (1%nat, m_Reset);
   (1%nat, m_Invalidate)].
Definition callsReading : list (nat * Method Z) :=
  [(1%nat, m_Read); (1%nat, m_Read_pVar None); (1%nat, m_Rollback);
   (1%nat, m_ReadWithDefault 6)].
Definition callsSecond : list (nat * Method Z) :=
  [(2%nat, m_Write 7); (2%nat, m_Commit); (2%nat, m_Reset)].

(** ** [DoubleSetting]

    Settings of type [double] over a finite map of keys to doubles.
    [operator!=] of [double] is the negation of the IEEE 754 equality, under
    which a NaN differs from itself. *)
#[export] Instance float_ValueInit : ValueInit float := PrimFloat.zero.

#[export] Instance float_NotEqual : NotEqual float :=
  fun x y => negb (PrimFloat.eqb x y).

#[export] Instance DoubleConfig_ConfigBase
    : ConfigBase float (gmap string float) := {
  cfgRead c key := c !! key;
  cfgWrite c key value := (true, <[key := value]> c);
  cfgFlush c := (true, c)
}.

(** A [DoubleSetting] whose default is a NaN, as its constructor leaves it,
    over an empty store. *)
Definition settingNaN : Setting float :=
  mkSetting "/GUI/Gain" PrimFloat.zero false None PrimFloat.nan PrimFloat.zero.
Definition worldNaN : World float (gmap string float) :=
  mkWorld (Some ∅) None {[1%nat := settingNaN]} [].

Ltac world_eq :=
  unfold upd, log, staged, set_objects, set_calls, set_gPrefs, set_sCurrent;
  cbn; rewrite ?insert_insert_eq; try done.

Section SettingsTheory.

Context {T : Type} {T_ne : NotEqual T} `{ValueInit T}.
Context {Config : Type} `{ConfigBase T Config}.

Implicit Types (w : World T Config) (s : Setting T) (this : nat) (c : Config).

(** *** The state *)

Lemma upd_same w this s : objects w !! this = Some s -> upd this s w = w.
Proof.
  intros Hs. destruct w as [g sc o l]. unfold upd, set_objects. cbn in *.
  f_equal. by apply insert_id.
Qed.

Lemma upd_upd w this s1 s2 : upd this s2 (upd this s1 w) = upd this s2 w.
Proof. unfold upd, set_objects. cbn. f_equal. apply insert_insert_eq. Qed.

Lemma objects_upd w this s : objects (upd this s w) !! this = Some s.
Proof. cbn. apply lookup_insert_eq. Qed.

Lemma objects_upd_ne w this p s :
  this <> p -> objects (upd this s w) !! p = objects w !! p.
Proof. intros. cbn. by apply lookup_insert_ne. Qed.

Lemma set_mDefaultValue_same s :
  mFunction s = None -> set_mDefaultValue (resolved s) s = s.
Proof. intros Hf. unfold resolved. rewrite Hf. by destruct s. Qed.

Lemma reads_no_write (l : list (Call T)) key :
  forallb isRead l = true -> existsb (isWriteTo key) l = false.
Proof.
  induction l as [|x l IH]; [done|]. cbn.
  destruct x; cbn; [exact IH|done|done].
Qed.

Lemma resolved_defaulted s : resolved (defaulted s) = resolved s.
Proof.
  unfold defaulted. unfold resolved at 1. cbn. unfold resolved.
  by destruct (mFunction s).
Qed.

(** *** The member functions, one equation each *)

Lemma load_eq w this s : objects w !! this = Some s -> load this w = Done s w.
Proof. intros Hs. unfold load. by rewrite Hs. Qed.

Lemma assign_eq w this s f :
  objects w !! this = Some s -> assign this f w = Done tt (upd this (f s) w).
Proof. intros Hs. unfold assign. by rewrite Hs. Qed.

Lemma GetDefault_eq w this s :
  objects w !! this = Some s ->
  GetDefault this w
  = Done (resolved s) (upd this (set_mDefaultValue (resolved s) s) w).
Proof.
  intros Hs. unfold GetDefault, bind. rewrite (load_eq w this s Hs).
  destruct (mFunction s) as [f|] eqn:Hf.
  - rewrite (assign_eq w this s _ Hs).
    rewrite (load_eq _ this _ (objects_upd _ _ _)).
    unfold ret, resolved. by rewrite Hf.
  - rewrite (set_mDefaultValue_same s Hf), (upd_same w this s Hs).
    unfold ret at 1. rewrite (load_eq w this s Hs).
    unfold ret, resolved. by rewrite Hf.
Qed.

Lemma ReadWithDefault_valid w this s d :
  objects w !! this = Some s -> mValid s = true ->
  ReadWithDefault this d w = Done (mCurrentValue s) w.
Proof.
  intros Hs Hv. unfold ReadWithDefault, bind. rewrite (load_eq w this s Hs), Hv.
  done.
Qed.

Lemma ReadWithDefault_config w this s d c :
  objects w !! this = Some s -> mValid s = false -> gPrefs w = Some c ->
  ReadWithDefault this d w
  = Done (fetched c s d) (log (CallRead (mPath s)) (upd this (cached c s d) w)).
Proof.
  intros Hs Hv Hc. unfold ReadWithDefault, bind.
  rewrite (load_eq w this s Hs), Hv. unfold GetConfig. rewrite Hc.
  unfold config_ReadObject. rewrite Hc.
  assert (Hs' : objects (log (CallRead (mPath s)) w) !! this = Some s) by done.
  rewrite (assign_eq _ this s _ Hs').
  rewrite (load_eq _ this _ (objects_upd _ _ _)).
  rewrite (assign_eq _ this _ _ (objects_upd _ _ _)), upd_upd.
  rewrite (load_eq _ this _ (objects_upd _ _ _)). done.
Qed.

Lemma ReadWithDefault_null w this s d :
  objects w !! this = Some s -> mValid s = false -> gPrefs w = None ->
  ReadWithDefault this d w = Done value_init w.
Proof.
  intros Hs Hv Hc. unfold ReadWithDefault, bind.
  rewrite (load_eq w this s Hs), Hv. unfold GetConfig. by rewrite Hc.
Qed.

Lemma Read_valid w this s :
  objects w !! this = Some s -> mValid s = true ->
  Read this w = Done (mCurrentValue s) (upd this (defaulted s) w).
Proof.
  intros Hs Hv. unfold Read, bind. rewrite (GetDefault_eq w this s Hs).
  by rewrite (ReadWithDefault_valid (upd this (defaulted s) w) this
                (defaulted s) _ (objects_upd _ _ _) Hv).
Qed.

Lemma Read_config w this s c :
  objects w !! this = Some s -> mValid s = false -> gPrefs w = Some c ->
  Read this w
  = Done (fetched c s (resolved s))
         (log (CallRead (mPath s))
              (upd this (cached c (defaulted s) (resolved s)) w)).
Proof.
  intros Hs Hv Hc. unfold Read, bind. rewrite (GetDefault_eq w this s Hs).
  rewrite (ReadWithDefault_config (upd this (defaulted s) w) this
             (defaulted s) _ c (objects_upd _ _ _) Hv Hc).
  by rewrite upd_upd.
Qed.

Lemma Read_null w this s :
  objects w !! this = Some s -> mValid s = false -> gPrefs w = None ->
  Read this w = Done value_init (upd this (defaulted s) w).
Proof.
  intros Hs Hv Hc. unfold Read, bind. rewrite (GetDefault_eq w this s Hs).
  by rewrite (ReadWithDefault_null (upd this (defaulted s) w) this
                (defaulted s) _ (objects_upd _ _ _) Hv Hc).
Qed.

Lemma DoWrite_config w this s c ok c' :
  objects w !! this = Some s -> gPrefs w = Some c ->
  cfgWrite c (mPath s) (mCurrentValue s) = (ok, c') ->
  DoWrite this w
  = Done ok (upd this (set_mValid ok s)
               (log (CallWrite (mPath s) (mCurrentValue s) ok)
                    (set_gPrefs (Some c') w))).
Proof.
  intros Hs Hc Hw. unfold DoWrite, bind, GetConfig. rewrite Hc.
  rewrite (load_eq w this s Hs). unfold config_Write. rewrite Hc, Hw.
  set (w1 := log _ _).
  assert (Hs1 : objects w1 !! this = Some s) by done.
  rewrite (assign_eq w1 this s _ Hs1).
  by rewrite (load_eq _ this _ (objects_upd _ _ _)).
Qed.

Lemma DoWrite_null w this s :
  objects w !! this = Some s -> gPrefs w = None ->
  DoWrite this w = Done false (upd this (set_mValid false s) w).
Proof.
  intros Hs Hc. unfold DoWrite, bind, GetConfig. rewrite Hc.
  rewrite (load_eq w this s Hs). unfold ret.
  rewrite (assign_eq w this s _ Hs).
  by rewrite (load_eq _ this _ (objects_upd _ _ _)).
Qed.

Lemma Add_idle w this : idle w = true -> SettingScope_Add this w = Done NotAdded w.
Proof.
  unfold idle, SettingScope_Add. destruct (sCurrent w) as [sc|]; [|done].
  by intros ->.
Qed.

Lemma Add_first w this sc :
  sCurrent w = Some sc -> mCommitted sc = false -> this ∉ mPending sc ->
  SettingScope_Add this w = Done Added (staged this sc w).
Proof.
  intros Hsc Hc Hp. unfold SettingScope_Add. rewrite Hsc, Hc.
  by rewrite bool_decide_eq_false_2.
Qed.

Lemma Add_again w this sc :
  sCurrent w = Some sc -> mCommitted sc = false -> this ∈ mPending sc ->
  SettingScope_Add this w = Done PreviouslyAdded w.
Proof.
  intros Hsc Hc Hp. unfold SettingScope_Add. rewrite Hsc, Hc.
  by rewrite bool_decide_eq_true_2.
Qed.

Lemma Write_eager_config w this s c value ok c' :
  objects w !! this = Some s -> idle w = true -> gPrefs w = Some c ->
  cfgWrite c (mPath s) value = (ok, c') ->
  Write this value w
  = Done ok (upd this (set_mValid ok (set_mCurrentValue value s))
               (log (CallWrite (mPath s) value ok) (set_gPrefs (Some c') w))).
Proof.
  intros Hs Hi Hc Hw. unfold Write, bind. rewrite (Add_idle w this Hi).
  unfold GetConfig. rewrite Hc, (assign_eq w this s _ Hs).
  rewrite (DoWrite_config (upd this (set_mCurrentValue value s) w) this
             (set_mCurrentValue value s) c ok c' (objects_upd _ _ _) Hc Hw).
  world_eq.
Qed.

Lemma Write_eager_null w this value :
  idle w = true -> gPrefs w = None -> Write this value w = Done false w.
Proof.
  intros Hi Hc. unfold Write, bind. rewrite (Add_idle w this Hi).
  unfold GetConfig. by rewrite Hc.
Qed.

Lemma Write_first w this sc value orig w1 s1 :
  sCurrent w = Some sc -> mCommitted sc = false -> this ∉ mPending sc ->
  Read this (staged this sc w) = Done orig w1 ->
  objects w1 !! this = Some s1 ->
  Write this value w
  = Done true
      (upd this (set_mCurrentValue value (set_mPreviousValue orig s1)) w1).
Proof.
  intros Hsc Hc Hp Hr Hs1. unfold Write, bind.
  rewrite (Add_first w this sc Hsc Hc Hp), Hr.
  rewrite (assign_eq w1 this s1 _ Hs1).
  rewrite (assign_eq _ this _ _ (objects_upd _ _ _)).
  by rewrite upd_upd.
Qed.

Lemma Write_again w this s sc value :
  objects w !! this = Some s ->
  sCurrent w = Some sc -> mCommitted sc = false -> this ∈ mPending sc ->
  Write this value w = Done true (upd this (set_mCurrentValue value s) w).
Proof.
  intros Hs Hsc Hc Hp. unfold Write, bind.
  rewrite (Add_again w this sc Hsc Hc Hp).
  by rewrite (assign_eq w this s _ Hs).
Qed.

Lemma Rollback_eq w this s :
  objects w !! this = Some s ->
  Rollback this w
  = Done tt (upd this (set_mCurrentValue (mPreviousValue s) s) w).
Proof.
  intros Hs. unfold Rollback, bind. rewrite (load_eq w this s Hs).
  by rewrite (assign_eq w this s _ Hs).
Qed.

(** A read returns the visible value, makes only read calls on the store,
    touches no other object, and leaves the visible value as it was. *)
Lemma Read_visible w this s :
  objects w !! this = Some s ->
  exists s1 l,
    Read this w
    = Done (visible (gPrefs w) s) (set_calls (calls w ++ l) (upd this s1 w)) /\
    forallb isRead l = true /\
    visible (gPrefs w) s1 = visible (gPrefs w) s /\
    (forall x y, visible (gPrefs w)
                   (set_mCurrentValue x (set_mPreviousValue y s1))
                 = if mValid s1 then x else visible (gPrefs w) s) /\
    mPreviousValue s1 = mPreviousValue s /\
    mPath s1 = mPath s /\ resolved s1 = resolved s.
Proof.
  intros Hs.
  pose proof (resolved_defaulted s) as Hr.
  destruct (mValid s) eqn:Hv.
  - exists (defaulted s), []. rewrite (Read_valid w this s Hs Hv).
    unfold visible. cbn. rewrite Hv. split_and!; try done.
    by rewrite app_nil_r; destruct w.
  - destruct (gPrefs w) as [c|] eqn:Hc.
    + exists (cached c (defaulted s) (resolved s)), [CallRead (mPath s)].
      rewrite (Read_config w this s c Hs Hv Hc).
      assert (Hrc : resolved (cached c (defaulted s) (resolved s)) = resolved s)
        by exact Hr.
      unfold visible. rewrite Hv, Hrc. cbn.
      change (fetched c (defaulted s) (resolved s))
        with (fetched c s (resolved s)).
      split_and!; try done.
      * by destruct (not_equal _ _).
      * intros x y. destruct (not_equal _ _); [done|].
        change (resolved (set_mCurrentValue x _))
          with (resolved (defaulted s)).
        by rewrite Hr.
    + exists (defaulted s), []. rewrite (Read_null w this s Hs Hv Hc).
      unfold visible. cbn. rewrite Hv. split_and!; try done.
      by rewrite app_nil_r; destruct w.
Qed.

(** *** Reading *)

(** C1, amended.  [Read()] returns the cached value when the validity flag
    is set and makes no call on the store.  Otherwise, with a store
    attached, it reads the key once: a stored value is returned and cached,
    an absent key gives the resolved default of [GetDefault()]; in both
    cases the validity flag becomes the comparison [!=] of the value
    returned with the resolved default, so that after an absent key the
    cache is invalid for every default that compares equal to itself.  With
    no store attached it returns the value-initialised [T{}], not the
    resolved default, and leaves the cache invalid. *)
Theorem Read_cache_store_default w this s :
  objects w !! this = Some s ->
  exists v w' s',
    Read this w = Done v w' /\ objects w' !! this = Some s' /\
    if mValid s then
      v = mCurrentValue s /\ calls w' = calls w /\ mValid s' = true
    else
      match gPrefs w with
      | Some c =>
          calls w' = calls w ++ [CallRead (mPath s)] /\
          match cfgRead c (mPath s) with
          | Some x =>
              v = x /\ mCurrentValue s' = x /\
              mValid s' = not_equal x (resolved s)
          | None =>
              v = resolved s /\
              mValid s' = not_equal (resolved s) (resolved s)
          end
      | None => v = value_init /\ calls w' = calls w /\ mValid s' = false
      end.
Proof.
  intros Hs. destruct (mValid s) eqn:Hv.
  - eexists _, _, _. split; [by apply Read_valid|].
    split; [apply objects_upd|]. done.
  - destruct (gPrefs w) as [c|] eqn:Hc.
    + eexists _, _, _. split; [by apply (Read_config w this s c)|].
      split; [apply objects_upd|]. split; [done|].
      unfold cached, fetched. cbn.
      by destruct (cfgRead c (mPath s)) as [x|].
    + eexists _, _, _. split; [by apply Read_null|].
      split; [apply objects_upd|]. done.
Qed.

(** C6.  When [ReadWithDefault(d)] consults the store and finds there a
    value that compares equal to the fallback [d] ([v != d] is false), it
    returns that value and leaves the cache marked invalid; the next
    [ReadWithDefault], whatever its fallback [d'], reads the store again,
    and the value found is then cached as valid exactly when it differs
    from [d']. *)
Theorem ReadWithDefault_fallback_found w this s c v d d' :
  objects w !! this = Some s -> mValid s = false -> gPrefs w = Some c ->
  cfgRead c (mPath s) = Some v -> not_equal v d = false ->
  exists w1 s1 w2 s2,
    ReadWithDefault this d w = Done v w1 /\
    objects w1 !! this = Some s1 /\ mValid s1 = false /\
    ReadWithDefault this d' w1 = Done v w2 /\
    calls w2 = calls w1 ++ [CallRead (mPath s)] /\
    objects w2 !! this = Some s2 /\ mCurrentValue s2 = v /\
    mValid s2 = not_equal v d'.
Proof.
  intros Hs Hv Hc Hd Heq.
  pose proof (ReadWithDefault_config w this s d c Hs Hv Hc) as HR1.
  assert (Hf : forall x, fetched c s x = v)
    by (intros x; unfold fetched; by rewrite Hd).
  rewrite Hf in HR1.
  set (w1 := log (CallRead (mPath s)) (upd this (cached c s d) w)) in *.
  assert (Hs1 : objects w1 !! this = Some (cached c s d))
    by apply objects_upd.
  assert (Hv1 : mValid (cached c s d) = false).
  { unfold cached. cbn. by rewrite Hf. }
  pose proof (ReadWithDefault_config w1 this _ d' c Hs1 Hv1 Hc) as HR2.
  assert (Hf1 : fetched c (cached c s d) d' = v) by apply (Hf d').
  rewrite Hf1 in HR2.
  eexists _, _, _, _. split; [exact HR1|]. split; [exact Hs1|].
  split; [exact Hv1|]. split; [exact HR2|]. split; [done|].
  split; [apply objects_upd|]. unfold cached at 1 2. cbn. rewrite Hf1.
  done.
Qed.

(** *** Writing outside a scope *)

(** C4.  With no scope pending, the store attached and its write
    succeeding, [Write(v)] returns true and the [Read()] that follows
    returns [v]. *)
Theorem Write_then_Read w this s c c' v :
  objects w !! this = Some s -> idle w = true -> gPrefs w = Some c ->
  cfgWrite c (mPath s) v = (true, c') ->
  exists w1 w2, Write this v w = Done true w1 /\ Read this w1 = Done v w2.
Proof.
  intros Hs Hi Hc Hw. eexists _, _.
  split; [by apply (Write_eager_config w this s c v true c')|].
  by rewrite (Read_valid _ this _ (objects_upd _ _ _)).
Qed.

(** C10, amended.  With no scope pending and a store attached whose write
    returns false, [Write(v)] returns false having set the cached value to
    [v] and the validity flag to false, and the next [Read()] reads the
    store again instead of serving the cache.  With no store attached,
    [Write(v)] returns false and changes nothing: cached value and validity
    flag stay as they were. *)
Theorem Write_eager_failure w this s v :
  objects w !! this = Some s -> idle w = true ->
  match gPrefs w with
  | Some c =>
      forall c', cfgWrite c (mPath s) v = (false, c') ->
      exists w1 s1 r w2,
        Write this v w = Done false w1 /\
        objects w1 !! this = Some s1 /\
        mCurrentValue s1 = v /\ mValid s1 = false /\
        Read this w1 = Done r w2 /\
        calls w2 = calls w1 ++ [CallRead (mPath s)] /\
        r = default (resolved s) (cfgRead c' (mPath s))
  | None => Write this v w = Done false w
  end.
Proof.
  intros Hs Hi. destruct (gPrefs w) as [c|] eqn:Hc.
  - intros c' Hw.
    pose proof (Write_eager_config w this s c v false c' Hs Hi Hc Hw) as H1.
    set (s1 := set_mValid false (set_mCurrentValue v s)) in *.
    set (w1 := upd this s1 _) in *.
    assert (Hs1 : objects w1 !! this = Some s1) by apply objects_upd.
    pose proof (Read_config w1 this s1 c' Hs1 eq_refl eq_refl) as H2.
    eexists _, _, _, _. split; [exact H1|]. split; [exact Hs1|].
    split; [done|]. split; [done|]. split; [exact H2|]. done.
  - by apply Write_eager_null.
Qed.

(** *** Writing inside a scope *)

(** C5.  In a pending scope, the first [Write(v)] of a setting stages it,
    captures as [mPreviousValue] the value that [Read()] returns at that
    point, sets the cached value to [v] and returns true; the store is left
    as it is and the only calls made on it are those of the capturing read.
    Every later [Write(v)] in the scope changes the cached value alone and
    returns true. *)
Theorem Write_staged_cache_only w this s sc v :
  objects w !! this = Some s ->
  sCurrent w = Some sc -> mCommitted sc = false ->
  if bool_decide (this ∈ mPending sc) then
    Write this v w = Done true (upd this (set_mCurrentValue v s) w)
  else
    exists orig w1 s1 l,
      Read this (staged this sc w) = Done orig w1 /\
      objects w1 !! this = Some s1 /\
      Write this v w
      = Done true
          (upd this (set_mCurrentValue v (set_mPreviousValue orig s1)) w1) /\
      sCurrent w1 = Some (mkScope ({[this]} ∪ mPending sc) false) /\
      gPrefs w1 = gPrefs w /\
      calls w1 = calls w ++ l /\ forallb isRead l = true.
Proof.
  intros Hs Hsc Hc. case_bool_decide as Hp.
  - by apply (Write_again w this s sc).
  - assert (Hs0 : objects (staged this sc w) !! this = Some s) by done.
    destruct (Read_visible _ this s Hs0) as (s1 & l & Hr & Hl & _).
    eexists _, _, s1, l. split; [exact Hr|].
    split; [apply objects_upd|].
    split; [apply (Write_first w this sc v _ _ s1 Hsc Hc Hp Hr), objects_upd|].
    cbn. by rewrite Hc.
Qed.

(** C9.  A setting whose cache is invalid, whose key is absent from the
    attached store and whose resolved default compares equal to itself (as
    every [bool], [int] and [wxString] does): [Write(v)] in a pending scope
    returns true and sets the cached value to [v] with the validity flag
    still false, so the [Read()] that follows reads the store again, returns
    the resolved default, and overwrites the staged cached value with it. *)
Theorem staged_Write_not_read_back w this s sc c v :
  objects w !! this = Some s -> mValid s = false ->
  sCurrent w = Some sc -> mCommitted sc = false ->
  gPrefs w = Some c -> cfgRead c (mPath s) = None ->
  not_equal (resolved s) (resolved s) = false ->
  exists w1 s1 w2 s2,
    Write this v w = Done true w1 /\
    objects w1 !! this = Some s1 /\
    mCurrentValue s1 = v /\ mValid s1 = false /\
    Read this w1 = Done (resolved s) w2 /\
    calls w2 = calls w1 ++ [CallRead (mPath s)] /\
    objects w2 !! this = Some s2 /\
    mCurrentValue s2 = resolved s /\ mValid s2 = false.
Proof.
  intros Hs Hv Hsc Hcm Hc Hk Hself.
  assert (Hf : forall s', mPath s' = mPath s -> forall d, fetched c s' d = d).
  { intros s' Hp d. unfold fetched. by rewrite Hp, Hk. }
  pose proof (resolved_defaulted s) as Hrd.
  assert (Hkey : exists w1 s1,
    Write this v w = Done true w1 /\ objects w1 !! this = Some s1 /\
    mCurrentValue s1 = v /\ mValid s1 = false /\ gPrefs w1 = Some c /\
    mPath s1 = mPath s /\ resolved s1 = resolved s).
  { destruct (decide (this ∈ mPending sc)) as [Hp|Hp].
    - eexists _, _. split; [by apply (Write_again w this s sc)|].
      split; [apply objects_upd|]. done.
    - assert (Hs0 : objects (staged this sc w) !! this = Some s) by done.
      pose proof (Read_config _ this s c Hs0 Hv Hc) as Hr.
      eexists _, _.
      split.
      { eapply Write_first; [exact Hsc|exact Hcm|exact Hp|exact Hr|].
        apply objects_upd. }
      split; [apply objects_upd|]. cbn.
      split_and!; try done.
      rewrite (Hf (defaulted s) eq_refl). exact Hself. }
  destruct Hkey as (w1 & s1 & HW & Hs1 & Hcur & Hv1 & Hc1 & Hp1 & Hr1).
  pose proof (Read_config w1 this s1 c Hs1 Hv1 Hc1) as HR.
  rewrite (Hf s1 Hp1), Hr1, Hp1 in HR.
  eexists w1, s1, _, _.
  split_and!;
    [exact HW|exact Hs1|exact Hcur|exact Hv1|exact HR|done|apply objects_upd|..].
  - cbn. rewrite (Hf (defaulted s1) Hp1). done.
  - cbn. rewrite (Hf (defaulted s1) Hp1). exact Hself.
Qed.

(** *** Scopes *)

Lemma SettingScope_dtor_eq w sc :
  sCurrent w = Some sc -> mCommitted sc = false ->
  SettingScope_dtor w
  = for_each Rollback (elements (mPending sc)) (set_sCurrent None w).
Proof. intros Hsc Hc. unfold SettingScope_dtor. by rewrite Hsc, Hc. Qed.

(** Rolling back the settings of a duplicate-free list restores the cached
    value of each from its [mPreviousValue] and makes no call on the
    store. *)
Lemma for_each_Rollback (l : list nat) : forall w,
  NoDup l -> (forall p, p ∈ l -> is_Some (objects w !! p)) ->
  exists w',
    for_each Rollback l w = Done tt w' /\
    gPrefs w' = gPrefs w /\ calls w' = calls w /\ sCurrent w' = sCurrent w /\
    (forall p, p ∉ l -> objects w' !! p = objects w !! p) /\
    (forall p s, p ∈ l -> objects w !! p = Some s ->
       objects w' !! p = Some (set_mCurrentValue (mPreviousValue s) s)).
Proof.
  induction l as [|p l IH]; intros w Hnd Hobj.
  - exists w. split_and!; try done. intros p s Hp. by apply not_elem_of_nil in Hp.
  - apply NoDup_cons in Hnd as [Hp Hnd].
    destruct (Hobj p) as [s Hs]; [apply elem_of_cons; by left|].
    set (w1 := upd p (set_mCurrentValue (mPreviousValue s) s) w).
    destruct (IH w1 Hnd) as (w' & Hrun & Hg & Hc & Hsc & Hout & Hin).
    { intros q Hq. unfold w1. rewrite objects_upd_ne by (by intros ->).
      apply Hobj, elem_of_cons. by right. }
    exists w'. split.
    { cbn [for_each]. unfold bind. by rewrite (Rollback_eq w p s Hs). }
    split; [done|]. split; [done|]. split; [done|]. split.
    + intros q Hq. apply not_elem_of_cons in Hq as [Hqp Hql].
      rewrite (Hout q Hql). by apply objects_upd_ne.
    + intros q s' Hq Hs'. apply elem_of_cons in Hq as [->|Hq].
      * rewrite Hs in Hs'. injection Hs' as <-.
        rewrite (Hout p Hp). apply objects_upd.
      * apply (Hin q s' Hq). unfold w1.
        rewrite objects_upd_ne by (by intros ->). done.
Qed.

(** Destroying a pending scope releases the global slot and rolls back every
    staged setting, whatever happened since the scope began; no call is made
    on the store. *)
Lemma SettingScope_dtor_rolls_back w sc :
  sCurrent w = Some sc -> mCommitted sc = false ->
  (forall p, p ∈ mPending sc -> is_Some (objects w !! p)) ->
  exists w',
    SettingScope_dtor w = Done tt w' /\
    sCurrent w' = None /\ gPrefs w' = gPrefs w /\ calls w' = calls w /\
    (forall p, p ∉ mPending sc -> objects w' !! p = objects w !! p) /\
    (forall p s, p ∈ mPending sc -> objects w !! p = Some s ->
       objects w' !! p = Some (set_mCurrentValue (mPreviousValue s) s)).
Proof.
  intros Hsc Hc Hobj. rewrite (SettingScope_dtor_eq w sc Hsc Hc).
  destruct (for_each_Rollback (elements (mPending sc)) (set_sCurrent None w))
    as (w' & Hrun & Hg & Hcalls & Hsc' & Hout & Hin).
  { apply NoDup_elements. }
  { intros p Hp. apply Hobj. by apply elem_of_elements. }
  exists w'. split; [done|]. split; [done|]. split; [done|]. split; [done|].
  split.
  - intros p Hp. apply Hout. by rewrite elem_of_elements.
  - intros p s Hp Hs. apply Hin; [by apply elem_of_elements|done].
Qed.

(** C3, amended.  From a state with no scope: begin a scope, record [orig]
    as the value read from the setting, write any value [v] to it, and
    destroy the scope with no commit called in between; the setting then
    reads [orig] again, the store is as it was, and the only calls made on
    it are reads.  A commit that was called and failed is another matter:
    it has called the store with a write and may have left the cache
    invalid, and the setting may then read another value than [orig]. *)
Theorem rollback_round_trip_restores w A s v :
  objects w !! A = Some s -> sCurrent w = None ->
  exists orig w' l,
    rollback_round_trip A v w = Done (orig, orig) w' /\
    orig = visible (gPrefs w) s /\
    gPrefs w' = gPrefs w /\ sCurrent w' = None /\
    calls w' = calls w ++ l /\ forallb isRead l = true /\
    existsb (isWriteTo (mPath s)) l = false.
Proof.
  intros Hs Hsc. unfold rollback_round_trip, bind.
  unfold SettingScope_ctor at 1. rewrite Hsc.
  set (sc0 := mkScope ∅ false).
  set (w0 := set_sCurrent (Some sc0) w).
  assert (Hs0 : objects w0 !! A = Some s) by done.
  destruct (Read_visible w0 A s Hs0) as (s1 & l1 & Hr1 & Hl1 & Hv1 & _).
  rewrite Hr1. set (w1 := set_calls _ _).
  set (w1s := staged A sc0 w1).
  assert (Hs1 : objects w1s !! A = Some s1) by apply objects_upd.
  destruct (Read_visible w1s A s1 Hs1)
    as (s2 & l2 & Hr2 & Hl2 & Hv2 & Hset & _).
  assert (HW : Write A v w1 = Done true
            (upd A (set_mCurrentValue v
                      (set_mPreviousValue (visible (gPrefs w) s1) s2))
               (set_calls (calls w1s ++ l2) (upd A s2 w1s)))).
  { eapply Write_first; [done|done|set_solver|exact Hr2|apply objects_upd]. }
  rewrite HW. set (w3 := upd A _ _).
  assert (Hel : elements ({[A]} ∪ mPending sc0) = [A]).
  { cbn. rewrite (right_id_L ∅ (∪)). apply elements_singleton. }
  rewrite (SettingScope_dtor_eq w3 (mkScope ({[A]} ∪ mPending sc0) false));
    [|done|done].
  cbn [mPending]. rewrite Hel. cbn [for_each]. unfold bind.
  rewrite (Rollback_eq (set_sCurrent None w3) A _ (objects_upd _ _ _)).
  unfold ret at 1. cbn [mPreviousValue set_mCurrentValue set_mPreviousValue].
  set (w4 := upd A _ _).
  destruct (Read_visible w4 A _ (objects_upd _ _ _))
    as (s5 & l5 & Hr5 & Hl5 & _).
  rewrite Hr5. unfold ret.
  change (gPrefs w4) with (gPrefs w) in *.
  change (gPrefs w1s) with (gPrefs w) in *.
  change (gPrefs w0) with (gPrefs w) in *.
  assert (Hfin : visible (gPrefs w)
            (set_mCurrentValue (visible (gPrefs w) s1)
               (set_mPreviousValue (visible (gPrefs w) s1) s2))
          = visible (gPrefs w) s).
  { rewrite Hset, Hv1. by destruct (mValid s2). }
  eexists (visible (gPrefs w) s), _, ((l1 ++ l2) ++ l5).
  split.
  { f_equal. f_equal. exact Hfin. }
  split; [done|]. split; [done|]. split; [done|].
  split; [cbn; by rewrite !app_assoc|].
  assert (Hall : forallb isRead ((l1 ++ l2) ++ l5) = true)
    by (rewrite !forallb_app, Hl1, Hl2, Hl5; done).
  split; [exact Hall|]. by apply reads_no_write.
Qed.

Lemma Commit_config w this s c :
  objects w !! this = Some s -> gPrefs w = Some c ->
  exists ok c',
    Commit this w
    = Done ok (upd this (set_mValid ok s)
                 (log (CallWrite (mPath s) (mCurrentValue s) ok)
                      (set_gPrefs (Some c') w))).
Proof.
  intros Hs Hc.
  destruct (cfgWrite c (mPath s) (mCurrentValue s)) as [ok c'] eqn:Hw.
  exists ok, c'. by apply (DoWrite_config w this s c).
Qed.

(** Committing the settings of a duplicate-free list, with a store
    attached: the i-th setting is written with its cached value, its
    validity flag becomes the result of that write, and nothing else
    changes. *)
Lemma commit_each_config (l : list nat) : forall w c,
  NoDup l -> gPrefs w = Some c ->
  (forall p, p ∈ l -> is_Some (objects w !! p)) ->
  exists oks new w1,
    commit_each l w = Done (forallb id oks) w1 /\
    length oks = length l /\ length new = length l /\
    calls w1 = calls w ++ new /\
    sCurrent w1 = sCurrent w /\ is_Some (gPrefs w1) /\
    (forall p, p ∉ l -> objects w1 !! p = objects w !! p) /\
    (forall i p b s,
        l !! i = Some p -> oks !! i = Some b -> objects w !! p = Some s ->
        new !! i = Some (CallWrite (mPath s) (mCurrentValue s) b) /\
        objects w1 !! p = Some (set_mValid b s)).
Proof.
  induction l as [|p l IH]; intros w c Hnd Hc Hobj.
  - exists [], [], w. cbn. rewrite app_nil_r.
    split_and!; done.
  - apply NoDup_cons in Hnd as [Hp Hnd].
    destruct (Hobj p) as [s Hs]; [set_solver|].
    destruct (Commit_config w p s c Hs Hc) as (ok & c' & HC).
    set (w' := upd p _ _) in HC.
    assert (Hother : forall q, q <> p -> objects w' !! q = objects w !! q).
    { intros q Hq. unfold w'. cbn. by apply lookup_insert_ne. }
    destruct (IH w' c' Hnd eq_refl) as
      (oks & new & w1 & Hrun & Hlen & Hlen' & Hcalls & Hsc & Hg & Hout & Hin).
    { intros q Hq. rewrite Hother; [apply Hobj; set_solver|].
      intros ->. done. }
    exists (ok :: oks), (CallWrite (mPath s) (mCurrentValue s) ok :: new), w1.
    split.
    { cbn [commit_each]. unfold bind. rewrite HC, Hrun. done. }
    split; [cbn; by rewrite Hlen|]. split; [cbn; by rewrite Hlen'|].
    split; [rewrite Hcalls; cbn; by rewrite <- app_assoc|].
    split; [done|]. split; [done|]. split.
    { intros q Hq. apply not_elem_of_cons in Hq as [Hqp Hql].
      rewrite (Hout q Hql). by apply Hother. }
    intros [|i] q b s' Hi Hb Hs'; cbn in Hi, Hb.
    + injection Hi as <-. injection Hb as <-.
      rewrite Hs in Hs'. injection Hs' as <-. split; [done|].
      rewrite Hout; [apply objects_upd|done].
    + assert (Hq : q <> p).
      { intros ->. apply Hp. by apply list_elem_of_lookup_2 in Hi. }
      apply (Hin i q b s' Hi Hb). by rewrite Hother.
Qed.

(** C2.  With a store attached, [Commit()] of the transaction invokes the
    commit operation of every staged setting, each writing its cached value
    once, in the order of the pending set; the validity flag of each
    becomes the result of its write and no cached value is restored.  If
    all writes succeed, one flush follows, the scope is marked committed and
    the result is true.  If any write fails the result is false, the scope
    is left uncommitted, and no call other than the commit writes is made on
    the store: what the successful commits wrote stays written. *)
Theorem SettingTransaction_Commit_result w sc c :
  sCurrent w = Some sc -> gPrefs w = Some c ->
  (forall p, p ∈ mPending sc -> is_Some (objects w !! p)) ->
  exists oks new ok w',
    SettingTransaction_Commit w = Done ok w' /\
    ok = forallb id oks /\
    length oks = length (elements (mPending sc)) /\
    length new = length (elements (mPending sc)) /\
    (forall i p b s,
        elements (mPending sc) !! i = Some p -> oks !! i = Some b ->
        objects w !! p = Some s ->
        new !! i = Some (CallWrite (mPath s) (mCurrentValue s) b) /\
        objects w' !! p = Some (set_mValid b s)) /\
    (forall p, p ∉ mPending sc -> objects w' !! p = objects w !! p) /\
    if ok then
      exists flushed,
        calls w' = calls w ++ new ++ [CallFlush flushed] /\
        sCurrent w' = Some (mkScope (mPending sc) true)
    else
      calls w' = calls w ++ new /\ sCurrent w' = sCurrent w.
Proof.
  intros Hsc Hc Hobj.
  destruct (commit_each_config (elements (mPending sc)) w c)
    as (oks & new & w1 & Hrun & Hlen & Hlen' & Hcalls & Hsc1 & [c1 Hg]
        & Hout & Hin); [apply NoDup_elements|done|set_solver|].
  unfold SettingTransaction_Commit, bind. rewrite Hsc, Hrun.
  destruct (forallb id oks) eqn:Hok.
  - unfold config_Flush. rewrite Hg.
    destruct (cfgFlush c1) as [fl c2] eqn:Hfl.
    eexists oks, new, true, _. split; [done|]. split; [done|].
    split; [done|]. split; [done|]. split; [exact Hin|].
    split; [intros p Hp; apply Hout; set_solver|].
    exists fl. cbn. rewrite Hcalls. by rewrite <- app_assoc.
  - eexists oks, new, false, _. split; [done|]. split; [done|].
    split; [done|]. split; [done|]. split; [exact Hin|].
    split; [intros p Hp; apply Hout; set_solver|].
    split; [done|]. by rewrite Hsc1.
Qed.

(** *** Choice and enumeration settings *)

Lemma to_long_small n : 0 <= n < 2 ^ 63 -> to_long n = n.
Proof.
  intros Hn. unfold to_long. rewrite Z.mod_small; lia.
Qed.

Lemma ChoiceSetting_ctor_eq w key symbols defaultSymbol :
  Key_ok key w ->
  exists ch,
    mSymbols ch = symbols /\ mDefaultSymbol ch = defaultSymbol /\
    mMigrated ch = false /\
    ChoiceSetting_ctor key symbols defaultSymbol w
    = if bool_decide (defaultSymbol < to_long (vector_size symbols))
      then Done ch w else Stop AssertionFailed.
Proof.
  destruct key as [path|a]; cbn.
  - intros _. eexists (mkChoiceSetting path symbols None false defaultSymbol).
    split_and!; try done.
    unfold ChoiceSetting_ctor_path, bind, assert, ret. cbn.
    by case_bool_decide.
  - intros [k Hk].
    eexists (mkChoiceSetting (mPath k) symbols (Some a) false defaultSymbol).
    split_and!; try done.
    unfold ChoiceSetting_ctor_setting, bind, assert, ret.
    rewrite (load_eq w a k Hk). cbn. by case_bool_decide.
Qed.

(** C7.  Both constructors of [ChoiceSetting] succeed exactly when the
    documented precondition [defaultSymbol < static_cast<long>(size)] holds
    and stop on the failed assertion exactly when it does not; for a symbol
    table whose size fits a [long], a default row greater than or equal to
    the size of the table is rejected. *)
Theorem ChoiceSetting_ctor_default_bound w key symbols defaultSymbol :
  Key_ok key w -> vector_size symbols < 2 ^ 63 ->
  (vector_size symbols <= defaultSymbol ->
   ChoiceSetting_ctor key symbols defaultSymbol w = Stop AssertionFailed) /\
  (defaultSymbol < to_long (vector_size symbols) <->
   exists ch, ChoiceSetting_ctor key symbols defaultSymbol w = Done ch w) /\
  (~ defaultSymbol < to_long (vector_size symbols) <->
   ChoiceSetting_ctor key symbols defaultSymbol w = Stop AssertionFailed).
Proof.
  intros Hk Hsz.
  destruct (ChoiceSetting_ctor_eq w key symbols defaultSymbol Hk)
    as (ch & _ & _ & _ & ->).
  rewrite (to_long_small (vector_size symbols))
    by (unfold vector_size in *; lia).
  case_bool_decide as Hd.
  - split; [intros; lia|]. split.
    + split; [intros _; by exists ch|done].
    + split; [done|]. intros Heq. discriminate Heq.
  - split; [done|]. split; [|done].
    split; [done|]. intros [? Heq]. discriminate Heq.
Qed.

Lemma mutate_tables e m :
  mSymbols (base (mutate e m)) = mSymbols (base e) /\
  mIntValues (mutate e m) = mIntValues e.
Proof. destruct m; cbn; [done|]. by case_bool_decide. Qed.

Lemma foldl_mutate_tables (ops : list Mutation) : forall e,
  mSymbols (base (foldl mutate e ops)) = mSymbols (base e) /\
  mIntValues (foldl mutate e ops) = mIntValues e.
Proof.
  induction ops as [|m ops IH]; intros e; [done|]. cbn.
  destruct (IH (mutate e m)) as [-> ->]. apply mutate_tables.
Qed.

Lemma aligned_of_length e :
  length (mIntValues e) = length (mSymbols (base e)) -> aligned e.
Proof.
  intros Hlen. split; [done|]. intros i.
  rewrite !lookup_lt_is_Some. by rewrite Hlen.
Qed.

Lemma EnumSettingBase_ctor_Done w key symbols defaultSymbol intValues oldKey
    e w' :
  EnumSettingBase_ctor key symbols defaultSymbol intValues oldKey w
  = Done e w' ->
  mSymbols (base e) = symbols /\ mIntValues e = intValues /\
  mOldKey e = oldKey /\ length intValues = length symbols /\ w' = w.
Proof.
  unfold EnumSettingBase_ctor, bind.
  destruct (ChoiceSetting_ctor key symbols defaultSymbol w) as [b w0|f] eqn:Hb;
    [|done].
  assert (Hsym : mSymbols b = symbols /\ w0 = w).
  { destruct key as [path|a]; cbn in Hb.
    - unfold ChoiceSetting_ctor_path, bind, assert, ret in Hb. cbn in Hb.
      case_bool_decide; [|done]. by injection Hb as <- <-.
    - unfold ChoiceSetting_ctor_setting, bind, load, assert, ret in Hb.
      destruct (objects w !! a) as [k|]; [|done]. cbn in Hb.
      case_bool_decide; [|done]. by injection Hb as <- <-. }
  destruct Hsym as [Hsym ->]. unfold assert, ret. cbn. rewrite Hsym.
  case_bool_decide as Hlen; [|done]. intros [= <- <-]. cbn.
  split_and!; try done. unfold vector_size in Hlen. lia.
Qed.

(** C8.  An [EnumSettingBase] whose constructor completes, and likewise an
    [EnumSetting<Enum>], has its table of integer codes as long as its
    symbol table, so a row index is valid for one exactly when it is valid
    for the other; the member functions that change the object afterwards
    leave both tables as constructed. *)
Theorem EnumSettingBase_tables_aligned w key symbols defaultSymbol oldKey
    (ops : list Mutation) :
  (forall intValues e w',
      EnumSettingBase_ctor key symbols defaultSymbol intValues oldKey w
      = Done e w' ->
      aligned e /\ aligned (foldl mutate e ops) /\
      mSymbols (base (foldl mutate e ops)) = symbols /\
      mIntValues (foldl mutate e ops) = intValues) /\
  (forall (Enum : Type) (toInt : EnumToInt Enum) (values : list Enum) e w',
      EnumSetting_ctor key symbols defaultSymbol values oldKey w = Done e w' ->
      aligned e /\ aligned (foldl mutate e ops) /\
      mSymbols (base (foldl mutate e ops)) = symbols /\
      length (mIntValues (foldl mutate e ops)) = length values).
Proof.
  assert (Hbase : forall intValues e w',
      EnumSettingBase_ctor key symbols defaultSymbol intValues oldKey w
      = Done e w' ->
      aligned e /\ aligned (foldl mutate e ops) /\
      mSymbols (base (foldl mutate e ops)) = symbols /\
      mIntValues (foldl mutate e ops) = intValues).
  { intros intValues e w' Hctor.
    apply EnumSettingBase_ctor_Done in Hctor
      as (Hsym & Hint & _ & Hlen & _).
    destruct (foldl_mutate_tables ops e) as [Hs Hi].
    split; [apply aligned_of_length; by rewrite Hsym, Hint|].
    split; [apply aligned_of_length; by rewrite Hs, Hi, Hsym, Hint|].
    by rewrite Hs, Hi. }
  split; [exact Hbase|].
  intros Enum toInt values e w' Hctor. unfold EnumSetting_ctor in Hctor.
  destruct (Hbase _ e w' Hctor) as (Ha & Ha' & Hs & Hi).
  split_and!; try done. by rewrite Hi, length_map.
Qed.

End SettingsTheory.

(** ** Concrete runs *)

Example worldA_constructed g :
  Setting_ctor 1%nat "/GUI/A" 5 (emptyWorld g) = Done tt (worldA g).
Proof. reflexivity. Qed.

Example worldAB_constructed g :
  Setting_ctor 2%nat "/GUI/B" 3 (worldA g) = Done tt (worldAB g).
Proof. reflexivity. Qed.

Example worldScope_begun :
  SettingScope_ctor (worldA (Some storeEmpty)) = Done tt worldScope.
Proof. reflexivity. Qed.

Example worldStaged_reached :
  bind SettingScope_ctor
       (fun _ => bind (Write 1%nat 9) (fun _ => Write 2%nat 7))
       (worldAB (Some storeNoB))
  = Done true worldStaged.
Proof. vm_compute. reflexivity. Qed.

Example SettingTransaction_Commit_success :
  exists w',
    bind SettingScope_ctor
      (fun _ => bind (Write 1%nat 9)
         (fun _ => bind (Write 2%nat 7) (fun _ => SettingTransaction_Commit)))
      (worldAB (Some storeEmpty))
    = Done true w' /\
    calls w' = [CallRead "/GUI/A"; CallRead "/GUI/B";
                CallWrite "/GUI/B" 7 true; CallWrite "/GUI/A" 9 true;
                CallFlush true] /\
    (mCommitted <$> sCurrent w') = Some true.
Proof. eexists. split; [vm_compute; reflexivity|]. split; reflexivity. Qed.

(** A failed commit from the states that construction reaches.  Over the
    store that holds 8 and refuses the key, a fresh setting reads 8 before
    and after, but the store was called with a write of 9 under its key. *)
Example rollback_after_refused_Commit :
  exists w',
    rollback_round_trip_Commit 1%nat 9 (worldA (Some storeA8_refusing))
    = Done (8, false, 8) w' /\
    calls w' = [CallRead "/GUI/A"; CallWrite "/GUI/A" 9 false;
                CallRead "/GUI/A"].
Proof. eexists. split; [vm_compute; reflexivity|reflexivity]. Qed.

(** A [DoubleSetting] whose default is a NaN: with the key absent from the
    store, [Read()] returns the default and, a NaN being different from
    itself, caches it as valid; the next [Read()] is served from the cache
    and makes no call on the store. *)
Example DoubleSetting_NaN_default_cached :
  cfgRead (∅ : gmap string float) (mPath settingNaN) = None /\
  not_equal (resolved settingNaN) (resolved settingNaN) = true /\
  exists w1 s1 w2,
    Read 1%nat worldNaN = Done PrimFloat.nan w1 /\
    objects w1 !! 1%nat = Some s1 /\ mValid s1 = true /\
    calls w1 = [CallRead "/GUI/Gain"] /\
    Read 1%nat w1 = Done PrimFloat.nan w2 /\
    calls w2 = calls w1.
Proof.
  split; [reflexivity|]. split; [reflexivity|].
  eexists _, _, _. split; [vm_compute; reflexivity|].
  split; [reflexivity|]. split; [reflexivity|]. split; [reflexivity|].
  split; [vm_compute; reflexivity|]. reflexivity.
Qed.

(** C1, witness: a fresh setting with default 5 over an empty store reads
    5 and stays invalid. *)
Lemma Read_cache_store_default_witness :
  objects (worldA (Some storeEmpty)) !! 1%nat = Some settingA /\
  exists w' s',
    Read 1%nat (worldA (Some storeEmpty)) = Done 5 w' /\
    objects w' !! 1%nat = Some s' /\ mValid s' = false.
Proof.
  split; [reflexivity|].
  destruct (Read_cache_store_default (worldA (Some storeEmpty)) 1%nat settingA
              eq_refl) as (v & w' & s' & HR & Hs' & Hrest).
  vm_compute in Hrest. destruct Hrest as (_ & -> & Hv).
  exists w', s'. split; [exact HR|]. split; [exact Hs'|exact Hv].
Defined.

(** C1, counterexample: with no store attached, a fresh setting whose
    resolved default is 5 reads 0, the value-initialised [int]. *)
Lemma Read_without_store_counterexample :
  gPrefs (worldA None) = None /\
  GetDefault 1%nat (worldA None) = Done 5 (worldA None) /\
  Read 1%nat (worldA None) = Done 0 (worldA None) /\
  0 <> 5.
Proof.
  split; [reflexivity|]. split; [vm_compute; reflexivity|].
  split; [vm_compute; reflexivity|]. discriminate.
Qed.

(** C2, witness: two staged settings over a store that refuses the key
    of the second.  The commit reports failure, the scope stays
    uncommitted, and the value of the first setting is in the store. *)
Lemma SettingTransaction_Commit_result_witness :
  sCurrent worldStaged = Some (mkScope {[1%nat; 2%nat]} false) /\
  gPrefs worldStaged = Some storeNoB /\
  (exists ok w' oks,
      SettingTransaction_Commit worldStaged = Done ok w' /\
      ok = forallb id oks /\ length oks = 2%nat) /\
  exists w' c',
    SettingTransaction_Commit worldStaged = Done false w' /\
    gPrefs w' = Some c' /\
    cfgRead c' "/GUI/A" = Some 9 /\ cfgRead c' "/GUI/B" = None /\
    sCurrent w' = sCurrent worldStaged.
Proof.
  split; [reflexivity|]. split; [reflexivity|]. split.
  - destruct (SettingTransaction_Commit_result worldStaged
                (mkScope {[1%nat; 2%nat]} false) storeNoB eq_refl eq_refl)
      as (oks & new & ok & w' & Hrun & Hok & Hlen & _).
    + intros p Hp. apply elem_of_union in Hp as [Hp|Hp];
        apply elem_of_singleton in Hp; subst p; eexists; reflexivity.
    + exists ok, w', oks. split; [exact Hrun|]. split; [exact Hok|].
      exact Hlen.
  - eexists _, _. split; [vm_compute; reflexivity|].
    split; [reflexivity|]. split; [vm_compute; reflexivity|].
    split; [vm_compute; reflexivity|]. reflexivity.
Defined.

(** C3, witness: a fresh setting over the store that holds 8.  The value
    8 is read and cached, 9 is written in the scope, and the destruction of
    the scope puts 8 back in the cache: the setting reads 8 again, and the
    one call made on the store is the first read. *)
Lemma rollback_round_trip_restores_witness :
  objects (worldA (Some storeA8)) !! 1%nat = Some settingA /\
  sCurrent (worldA (Some storeA8)) = None /\
  exists w',
    rollback_round_trip 1%nat 9 (worldA (Some storeA8)) = Done (8, 8) w' /\
    gPrefs w' = Some storeA8 /\
    (mCurrentValue <$> objects w' !! 1%nat) = Some 8 /\
    calls w' = [CallRead "/GUI/A"].
Proof.
  split; [reflexivity|]. split; [reflexivity|].
  destruct (rollback_round_trip_restores (worldA (Some storeA8)) 1%nat
              settingA 9 eq_refl eq_refl)
    as (orig & w' & l & Hrun & Horig & Hg & _).
  vm_compute in Horig. subst orig. exists w'. split; [exact Hrun|].
  split; [exact Hg|].
  assert (Hw : exists w0,
             rollback_round_trip 1%nat 9 (worldA (Some storeA8))
             = Done (8, 8) w0 /\
             (mCurrentValue <$> objects w0 !! 1%nat) = Some 8 /\
             calls w0 = [CallRead "/GUI/A"]).
  { eexists. split; [vm_compute; reflexivity|]. split; reflexivity. }
  destruct Hw as (w0 & Hrun0 & Hcur & Hcalls).
  rewrite Hrun0 in Hrun. injection Hrun as <-. split; [exact Hcur|exact Hcalls].
Defined.

(** C3, counterexample: the scope is destroyed after a commit that failed.
    The setting has 4 cached as valid; the store holds 8 under its key and
    refuses writes to it.  In the scope [orig] is read as 4 and 9 is
    written; the commit calls the store with a write of 9 under the key of
    the setting, the store refuses, and [Commit] leaves the cache invalid;
    the destruction of the scope puts 4 back in the cached value but not
    in the validity flag, so the setting then reads the store and returns
    8, not [orig]. *)
Lemma rollback_after_failed_Commit_counterexample :
  exists w',
    rollback_round_trip_Commit 1%nat 9 (worldCached (Some storeA8_refusing))
    = Done (4, false, 8) w' /\
    4 <> 8 /\
    sCurrent w' = None /\
    calls w' = [CallWrite "/GUI/A" 9 false; CallRead "/GUI/A"] /\
    existsb (isWriteTo "/GUI/A") (calls w') = true.
Proof.
  eexists. split; [vm_compute; reflexivity|]. split; [discriminate|].
  split; [reflexivity|]. split; reflexivity.
Qed.

(** C4, witness: writing 9 to a fresh setting over an empty store, then
    reading it. *)
Lemma Write_then_Read_witness :
  objects (worldA (Some storeEmpty)) !! 1%nat = Some settingA /\
  idle (worldA (Some storeEmpty)) = true /\
  gPrefs (worldA (Some storeEmpty)) = Some storeEmpty /\
  cfgWrite storeEmpty "/GUI/A" 9 = (true, storeA9) /\
  exists w1 w2,
    Write 1%nat 9 (worldA (Some storeEmpty)) = Done true w1 /\
    Read 1%nat w1 = Done 9 w2.
Proof.
  split; [reflexivity|]. split; [reflexivity|]. split; [reflexivity|].
  split; [reflexivity|].
  exact (Write_then_Read (worldA (Some storeEmpty)) 1%nat settingA storeEmpty
           storeA9 9 eq_refl eq_refl eq_refl eq_refl).
Defined.

(** C5, witness: the first write of a fresh setting in a new scope. *)
Lemma Write_staged_cache_only_witness :
  objects worldScope !! 1%nat = Some settingA /\
  sCurrent worldScope = Some (mkScope ∅ false) /\
  exists w1 s1,
    Read 1%nat (staged 1%nat (mkScope ∅ false) worldScope) = Done 5 w1 /\
    objects w1 !! 1%nat = Some s1 /\
    Write 1%nat 9 worldScope
    = Done true (upd 1%nat (set_mCurrentValue 9 (set_mPreviousValue 5 s1)) w1) /\
    gPrefs w1 = gPrefs worldScope.
Proof.
  split; [reflexivity|]. split; [reflexivity|].
  pose proof (Write_staged_cache_only worldScope 1%nat settingA (mkScope ∅ false) 9
                eq_refl eq_refl eq_refl) as Hw.
  rewrite bool_decide_eq_false_2 in Hw by (cbn; set_solver).
  destruct Hw as (orig & w1 & s1 & l & HR & Hs1 & HW & _ & Hg & _).
  assert (Horig : orig = 5).
  { assert (HR' : exists w0, Read 1%nat (staged 1%nat (mkScope ∅ false) worldScope)
                             = Done 5 w0)
      by (eexists; vm_compute; reflexivity).
    destruct HR' as [w0 HR']. rewrite HR' in HR. by injection HR. }
  subst orig. exists w1, s1. split; [exact HR|]. split; [exact Hs1|].
  split; [exact HW|exact Hg].
Defined.

(** C6, witness: the store holds 5, the fallback is 5, the next fallback
    is 6. *)
Lemma ReadWithDefault_fallback_found_witness :
  objects (worldA (Some storeA5)) !! 1%nat = Some settingA /\
  mValid settingA = false /\
  cfgRead storeA5 (mPath settingA) = Some 5 /\
  not_equal 5 5 = false /\
  exists w1 s1 w2 s2,
    ReadWithDefault 1%nat 5 (worldA (Some storeA5)) = Done 5 w1 /\
    objects w1 !! 1%nat = Some s1 /\ mValid s1 = false /\
    ReadWithDefault 1%nat 6 w1 = Done 5 w2 /\
    objects w2 !! 1%nat = Some s2 /\ mValid s2 = true.
Proof.
  assert (Hfound : cfgRead storeA5 (mPath settingA) = Some 5) by reflexivity.
  split; [reflexivity|]. split; [reflexivity|]. split; [exact Hfound|].
  split; [reflexivity|].
  destruct (ReadWithDefault_fallback_found (worldA (Some storeA5)) 1%nat
              settingA storeA5 5 5 6 eq_refl eq_refl eq_refl Hfound eq_refl)
    as (w1 & s1 & w2 & s2 & H1 & Hs1 & Hv1 & H2 & _ & Hs2 & _ & Hv2).
  exists w1, s1, w2, s2. split; [exact H1|]. split; [exact Hs1|].
  split; [exact Hv1|]. split; [exact H2|]. split; [exact Hs2|].
  exact Hv2.
Defined.

(** C9, witness: from the construction of the setting and of the scope,
    over an empty store, the staged 9 is not read back. *)
Lemma staged_Write_not_read_back_witness :
  bind (Setting_ctor 1%nat "/GUI/A" 5) (fun _ => SettingScope_ctor)
       (emptyWorld (Some storeEmpty))
  = Done tt worldScope /\
  objects worldScope !! 1%nat = Some settingA /\
  mValid settingA = false /\
  sCurrent worldScope = Some (mkScope ∅ false) /\
  gPrefs worldScope = Some storeEmpty /\
  cfgRead storeEmpty (mPath settingA) = None /\
  not_equal (resolved settingA) (resolved settingA) = false /\
  exists w1 s1 w2 s2,
    Write 1%nat 9 worldScope = Done true w1 /\
    objects w1 !! 1%nat = Some s1 /\ mCurrentValue s1 = 9 /\
    Read 1%nat w1 = Done 5 w2 /\
    objects w2 !! 1%nat = Some s2 /\ mCurrentValue s2 = 5.
Proof.
  assert (Habsent : cfgRead storeEmpty (mPath settingA) = None)
    by reflexivity.
  split; [reflexivity|].
  split; [reflexivity|]. split; [reflexivity|]. split; [reflexivity|].
  split; [reflexivity|]. split; [exact Habsent|]. split; [reflexivity|].
  destruct (staged_Write_not_read_back worldScope 1%nat settingA
              (mkScope ∅ false) storeEmpty 9
              eq_refl eq_refl eq_refl eq_refl eq_refl Habsent eq_refl)
    as (w1 & s1 & w2 & s2 & HW & Hs1 & Hc1 & _ & HR & _ & Hs2 & Hc2 & _).
  exists w1, s1, w2, s2. split; [exact HW|]. split; [exact Hs1|].
  split; [exact Hc1|]. split; [exact HR|]. split; [exact Hs2|exact Hc2].
Defined.

(** C10, witness: the store refuses the key of the setting at address 2;
    the eager write of 7 fails, 7 is cached as invalid, and the next read
    asks the store and returns the default 3. *)
Lemma Write_eager_failure_witness :
  objects (worldAB (Some storeNoB)) !! 2%nat = Some settingB /\
  idle (worldAB (Some storeNoB)) = true /\
  cfgWrite storeNoB "/GUI/B" 7 = (false, storeNoB) /\
  exists w1 s1 w2,
    Write 2%nat 7 (worldAB (Some storeNoB)) = Done false w1 /\
    objects w1 !! 2%nat = Some s1 /\
    mCurrentValue s1 = 7 /\ mValid s1 = false /\
    Read 2%nat w1 = Done 3 w2 /\
    calls w2 = calls w1 ++ [CallRead "/GUI/B"].
Proof.
  assert (Hrefused : cfgWrite storeNoB "/GUI/B" 7 = (false, storeNoB))
    by reflexivity.
  split; [reflexivity|]. split; [reflexivity|]. split; [exact Hrefused|].
  destruct (Write_eager_failure (worldAB (Some storeNoB)) 2%nat settingB 7
              eq_refl eq_refl storeNoB Hrefused)
    as (w1 & s1 & r & w2 & HW & Hs1 & Hc & Hv & HR & Hcalls & Hr).
  vm_compute in Hr. subst r.
  exists w1, s1, w2. split; [exact HW|]. split; [exact Hs1|].
  split; [exact Hc|]. split; [exact Hv|]. split; [exact HR|exact Hcalls].
Defined.

(** C10, counterexample: with no store attached, the eager write of 9 to a
    fresh setting fails and the cached value is still 0, not 9. *)
Lemma Write_without_store_counterexample :
  gPrefs (worldA None) = None /\ idle (worldA None) = true /\
  Write 1%nat 9 (worldA None) = Done false (worldA None) /\
  mCurrentValue <$> objects (worldA None) !! 1%nat = Some 0 /\
  0 <> 9.
Proof.
  split; [reflexivity|]. split; [reflexivity|].
  split; [vm_compute; reflexivity|]. split; [reflexivity|]. discriminate.
Qed.

(** C7, witness: over a table of two symbols the default row 2 is
    rejected and the default row 1 is accepted. *)
Lemma ChoiceSetting_ctor_default_bound_witness :
  Key_ok (KeyPath "/GUI/Scale") (emptyWorld None) /\
  vector_size twoSymbols < 2 ^ 63 /\
  ChoiceSetting_ctor (KeyPath "/GUI/Scale") twoSymbols 2 (emptyWorld None)
  = Stop AssertionFailed /\
  exists ch,
    ChoiceSetting_ctor (KeyPath "/GUI/Scale") twoSymbols 1 (emptyWorld None)
    = Done ch (emptyWorld None).
Proof.
  assert (Hsz : vector_size twoSymbols < 2 ^ 63) by reflexivity.
  split; [exact I|]. split; [exact Hsz|]. split.
  - apply (ChoiceSetting_ctor_default_bound (emptyWorld None)
             (KeyPath "/GUI/Scale") twoSymbols 2 I Hsz).
    vm_compute. discriminate.
  - apply (ChoiceSetting_ctor_default_bound (emptyWorld None)
             (KeyPath "/GUI/Scale") twoSymbols 1 I Hsz).
    reflexivity.
Defined.

Example EnumSettingBase_ctor_mismatch :
  EnumSettingBase_ctor (KeyPath "/GUI/Scale") twoSymbols 0 [10]
    "/GUI/OldScale" (emptyWorld None)
  = Stop AssertionFailed.
Proof. vm_compute. reflexivity. Qed.

(** C8, witness: an enumeration setting over the two symbols with the
    integer codes 10 and 20, after a migration and a change of default. *)
Lemma EnumSettingBase_tables_aligned_witness :
  exists e,
    EnumSettingBase_ctor (KeyPath "/GUI/Scale") twoSymbols 0 [10; 20]
      "/GUI/OldScale" (emptyWorld None)
    = Done e (emptyWorld None) /\
    aligned (foldl mutate e [MarkMigrated; SetDefault 1]) /\
    mDefaultSymbol (base (foldl mutate e [MarkMigrated; SetDefault 1])) = 1.
Proof.
  eexists. split; [vm_compute; reflexivity|]. split; [|reflexivity].
  apply (proj1 (EnumSettingBase_tables_aligned (emptyWorld None)
                  (KeyPath "/GUI/Scale") twoSymbols 0 "/GUI/OldScale"
                  [MarkMigrated; SetDefault 1])
           [10; 20] _ (emptyWorld None)).
  vm_compute. reflexivity.
Defined.

(** * Further properties of [Setting<T>] *)

Section SettingsMore.

Context {T : Type} {T_ne : NotEqual T} `{ValueInit T}.
Context {Config : Type} `{ConfigBase T Config}.

Implicit Types (w : World T Config) (s : Setting T) (this : nat) (c : Config).

Local Abbreviation performs_here := (performs (T:=T) (Config:=Config)).

Ltac object_now := cbn; rewrite ?lookup_insert_eq; reflexivity.
Ltac read_store :=
  erewrite Read_config; [|object_now|reflexivity|cbn; eassumption || reflexivity].

(** *** The overloads with a pointer, one equation for each path *)

Lemma ReadWithDefault_pVar_null w this s d :
  objects w !! this = Some s ->
  ReadWithDefault_pVar this None d w
  = Done (false, None) (upd this (set_mValid false s) w).
Proof.
  intros Hs. unfold ReadWithDefault_pVar, bind. cbn.
  rewrite (load_eq w this s Hs). unfold GetConfig.
  by rewrite (assign_eq w this s _ Hs).
Qed.

Lemma ReadWithDefault_pVar_valid w this s x d :
  objects w !! this = Some s -> mValid s = true ->
  ReadWithDefault_pVar this (Some x) d w = Done (true, Some (mCurrentValue s)) w.
Proof.
  intros Hs Hv. unfold ReadWithDefault_pVar, bind. cbn.
  by rewrite (load_eq w this s Hs), Hv.
Qed.

Lemma ReadWithDefault_pVar_found w this s x d c v :
  objects w !! this = Some s -> mValid s = false -> gPrefs w = Some c ->
  cfgRead c (mPath s) = Some v ->
  ReadWithDefault_pVar this (Some x) d w
  = Done (true, Some v)
      (log (CallRead (mPath s))
         (upd this (set_mValid true (set_mCurrentValue v s)) w)).
Proof.
  intros Hs Hv Hc Hk. unfold ReadWithDefault_pVar, bind. cbn.
  rewrite (load_eq w this s Hs), Hv. unfold GetConfig. rewrite Hc. cbn.
  unfold config_Read. rewrite Hc, Hk. unfold bind.
  assert (Hs' : objects (log (CallRead (mPath s)) w) !! this = Some s) by done.
  rewrite (assign_eq _ this s _ Hs'). unfold ret at 1.
  rewrite (assign_eq _ this _ _ (objects_upd _ _ _)), upd_upd.
  by rewrite (load_eq _ this _ (objects_upd _ _ _)).
Qed.

Lemma ReadWithDefault_pVar_absent w this s x d c :
  objects w !! this = Some s -> mValid s = false -> gPrefs w = Some c ->
  cfgRead c (mPath s) = None ->
  ReadWithDefault_pVar this (Some x) d w
  = Done (false, Some d)
      (log (CallRead (mPath s)) (upd this (set_mValid false s) w)).
Proof.
  intros Hs Hv Hc Hk. unfold ReadWithDefault_pVar, bind. cbn.
  rewrite (load_eq w this s Hs), Hv. unfold GetConfig. rewrite Hc. cbn.
  unfold config_Read. rewrite Hc, Hk.
  assert (Hs' : objects (log (CallRead (mPath s)) w) !! this = Some s) by done.
  rewrite (assign_eq _ this s _ Hs').
  by rewrite (load_eq _ this _ (objects_upd _ _ _)).
Qed.

Lemma ReadWithDefault_pVar_no_store w this s x d :
  objects w !! this = Some s -> mValid s = false -> gPrefs w = None ->
  ReadWithDefault_pVar this (Some x) d w
  = Done (false, Some d) (upd this (set_mValid false s) w).
Proof.
  intros Hs Hv Hc. unfold ReadWithDefault_pVar, bind. cbn.
  rewrite (load_eq w this s Hs), Hv. unfold GetConfig. rewrite Hc. cbn.
  by rewrite (assign_eq w this s _ Hs).
Qed.

Lemma Invalidate_eq w this s :
  objects w !! this = Some s ->
  Invalidate this w = Done tt (upd this (set_mValid false s) w).
Proof. intros Hs. unfold Invalidate. by rewrite (assign_eq w this s _ Hs). Qed.

(** X1.  [ReadWithDefault(nullptr, d)] returns false without calling the
    store and throws the cache away, valid or not: with a store attached,
    the [Read()] that follows reads the store. *)
Theorem ReadWithDefault_pVar_null_discards_cache w this s c d :
  objects w !! this = Some s -> gPrefs w = Some c ->
  exists w1 w2,
    ReadWithDefault_pVar this None d w = Done (false, None) w1 /\
    calls w1 = calls w /\
    Read this w1 = Done (default (resolved s) (cfgRead c (mPath s))) w2 /\
    calls w2 = calls w ++ [CallRead (mPath s)].
Proof.
  intros Hs Hc. eexists _, _.
  split; [by apply ReadWithDefault_pVar_null|]. split; [done|].
  split.
  { by rewrite (Read_config (upd this (set_mValid false s) w) this
                (set_mValid false s) c (objects_upd _ _ _) eq_refl Hc). }
  done.
Qed.

(** X2.  [ReadWithDefault(pVar, d)] with a pointer to a variable returns
    true exactly when the value was defined, in the cache or under the key
    in the attached store.  The validity flag becomes the result; on true
    the variable holds the cached value, on false it holds [d] and the
    cached value is as before. *)
Theorem ReadWithDefault_pVar_defined w this s x d :
  objects w !! this = Some s ->
  exists ok v w' s',
    ReadWithDefault_pVar this (Some x) d w = Done (ok, Some v) w' /\
    objects w' !! this = Some s' /\ mValid s' = ok /\
    (ok = true -> v = mCurrentValue s') /\
    (ok = false -> v = d /\ mCurrentValue s' = mCurrentValue s) /\
    (ok = true <->
     mValid s = true \/
     exists c, gPrefs w = Some c /\ is_Some (cfgRead c (mPath s))).
Proof.
  intros Hs. destruct (mValid s) eqn:Hv.
  - exists true, (mCurrentValue s), w, s.
    split; [by apply ReadWithDefault_pVar_valid|].
    split_and!; try done. split; [by left|done].
  - destruct (gPrefs w) as [c|] eqn:Hc.
    + destruct (cfgRead c (mPath s)) as [v|] eqn:Hk.
      * eexists true, v, _, _.
        split; [by apply (ReadWithDefault_pVar_found w this s x d c v)|].
        split; [apply objects_upd|]. split_and!; try done.
        split; [|done]. intros _. right. exists c. by rewrite Hk.
      * eexists false, d, _, _.
        split; [by apply (ReadWithDefault_pVar_absent w this s x d c)|].
        split; [apply objects_upd|]. split_and!; try done.
        split; [done|]. intros [?|(c0 & [= <-] & Hsome)]; [done|].
        rewrite Hk in Hsome. by destruct Hsome.
    + eexists false, d, _, _.
      split; [by apply ReadWithDefault_pVar_no_store|].
      split; [apply objects_upd|]. split_and!; try done.
      split; [done|]. by intros [?|(c0 & ? & _)].
Qed.

(** X3.  With no store attached and nothing cached, the two overloads of
    [Read] differ: [Read(pVar)] leaves the resolved default in the variable
    (and returns false), while [Read()] returns the value-initialised
    [T{}]. *)
Theorem Read_overloads_without_store w this s x :
  objects w !! this = Some s -> mValid s = false -> gPrefs w = None ->
  exists w1 w2,
    Read_pVar this (Some x) w = Done (false, Some (resolved s)) w1 /\
    Read this w = Done value_init w2.
Proof.
  intros Hs Hv Hc. eexists _, _. split; [|by apply Read_null].
  unfold Read_pVar, bind. rewrite (GetDefault_eq w this s Hs).
  by rewrite (ReadWithDefault_pVar_no_store (upd this (defaulted s) w) this
                (defaulted s) x _ (objects_upd _ _ _) Hv Hc).
Qed.


(** X5.  [Invalidate()] makes no call on the store; with a store attached,
    the [Read()] that follows reads the key once and returns what the store
    holds, or the resolved default, whatever was cached before. *)
Theorem Invalidate_then_Read w this s c :
  objects w !! this = Some s -> gPrefs w = Some c ->
  exists w1 w2,
    Invalidate this w = Done tt w1 /\
    calls w1 = calls w /\ gPrefs w1 = gPrefs w /\
    Read this w1 = Done (default (resolved s) (cfgRead c (mPath s))) w2 /\
    calls w2 = calls w ++ [CallRead (mPath s)].
Proof.
  intros Hs Hc. eexists _, _. split; [by apply Invalidate_eq|].
  split; [done|]. split; [done|]. split.
  { by rewrite (Read_config (upd this (set_mValid false s) w) this
                (set_mValid false s) c (objects_upd _ _ _) eq_refl Hc). }
  done.
Qed.


(** X7.  [Commit()] leaves the cached value and the rollback value as they
    are and sets the validity flag to its result.  With no store attached
    the result is false and no call is made, so a valid cache becomes
    invalid; with a store attached the cached value is written once under
    the key and the result is that of the write. *)
Theorem Commit_sets_validity w this s :
  objects w !! this = Some s ->
  exists ok w' s',
    Commit this w = Done ok w' /\
    objects w' !! this = Some s' /\ mValid s' = ok /\
    mCurrentValue s' = mCurrentValue s /\
    mPreviousValue s' = mPreviousValue s /\
    match gPrefs w with
    | None => ok = false /\ calls w' = calls w
    | Some c =>
        ok = fst (cfgWrite c (mPath s) (mCurrentValue s)) /\
        calls w' = calls w ++ [CallWrite (mPath s) (mCurrentValue s) ok]
    end.
Proof.
  intros Hs. destruct (gPrefs w) as [c|] eqn:Hc.
  - destruct (cfgWrite c (mPath s) (mCurrentValue s)) as [ok c'] eqn:Hw.
    eexists ok, _, _. split; [by apply (DoWrite_config w this s c ok c')|].
    split; [apply objects_upd|]. done.
  - eexists false, _, _. split; [by apply DoWrite_null|].
    split; [apply objects_upd|]. done.
Qed.

(** X8.  A store in which a successful write is read back: with no scope
    pending, [Write(v)], [Invalidate()], [Read()] returns [v]. *)
Theorem Write_Invalidate_Read w this s c c' v :
  objects w !! this = Some s -> idle w = true -> gPrefs w = Some c ->
  cfgWrite c (mPath s) v = (true, c') -> cfgRead c' (mPath s) = Some v ->
  exists w1 w2 w3,
    Write this v w = Done true w1 /\ Invalidate this w1 = Done tt w2 /\
    Read this w2 = Done v w3.
Proof.
  intros Hs Hi Hc Hw Hr. eexists _, _, _.
  split; [by apply (Write_eager_config w this s c v true c')|].
  split; [by apply Invalidate_eq, objects_upd|].
  read_store. unfold fetched. cbn. by rewrite Hr.
Qed.


(** *** Staged writes *)

Lemma default_last_cons (x v : T) (vs : list T) :
  default x (last (v :: vs)) = default v (last vs).
Proof.
  revert x v. induction vs as [|v' vs IH]; intros x v; [done|].
  by rewrite last_cons_cons, (IH x v'), (IH v v').
Qed.

Lemma Write_all_staged (values : list T) : forall w this s sc,
  objects w !! this = Some s ->
  sCurrent w = Some sc -> mCommitted sc = false -> this ∈ mPending sc ->
  Write_all this values w
  = Done tt (upd this (set_mCurrentValue
                         (default (mCurrentValue s) (last values)) s) w).
Proof.
  induction values as [|v vs IH]; intros w this s sc Hs Hsc Hc Hp.
  - cbn. unfold ret. f_equal. symmetry. apply upd_same.
    rewrite Hs. by destruct s.
  - unfold Write_all. cbn [for_each]. unfold bind at 1. unfold bind at 1.
    rewrite (Write_again w this s sc v Hs Hsc Hc Hp). unfold ret at 1.
    fold (Write_all this vs).
    rewrite (IH (upd this (set_mCurrentValue v s) w) this
               (set_mCurrentValue v s) sc (objects_upd _ _ _) Hsc Hc Hp).
    rewrite upd_upd.
    by rewrite default_last_cons.
Qed.

(** X10.  In a pending scope, however many values are written to a
    setting, the store is not written, the rollback value is the one
    captured at the first staging (the value [Read()] returned then, or the
    one already held if the setting was staged before), and the cached
    value is the last one written: it is what [Commit()] then writes under
    the key. *)
Theorem staged_writes_keep_first_commit_last w this s sc v (values : list T) :
  objects w !! this = Some s ->
  sCurrent w = Some sc -> mCommitted sc = false ->
  exists w1 s1 l,
    Write_all this (v :: values) w = Done tt w1 /\
    objects w1 !! this = Some s1 /\
    mCurrentValue s1 = default v (last values) /\
    mPreviousValue s1
    = (if bool_decide (this ∈ mPending sc) then mPreviousValue s
       else visible (gPrefs w) s) /\
    gPrefs w1 = gPrefs w /\
    calls w1 = calls w ++ l /\ forallb isRead l = true /\
    forall c, gPrefs w = Some c ->
      exists ok w2,
        Commit this w1 = Done ok w2 /\
        calls w2
        = calls w1 ++ [CallWrite (mPath s) (default v (last values)) ok].
Proof.
  intros Hs Hsc Hc.
  pose proof (fun x => default_last_cons x v values) as Hlast.
  assert (Hcommit : forall w1 s1 x,
    objects w1 !! this = Some s1 -> mPath s1 = mPath s ->
    mCurrentValue s1 = x ->
    forall c, gPrefs w1 = Some c ->
      exists ok w2, Commit this w1 = Done ok w2 /\
                    calls w2 = calls w1 ++ [CallWrite (mPath s) x ok]).
  { intros w1 s1 x Hs1 Hp1 Hx c Hg.
    destruct (cfgWrite c (mPath s1) (mCurrentValue s1)) as [ok c'] eqn:Hw.
    exists ok. eexists. split; [by apply (DoWrite_config w1 this s1 c ok c')|].
    cbn. by rewrite Hp1, Hx. }
  case_bool_decide as Hp.
  - rewrite (Write_all_staged (v :: values) w this s sc Hs Hsc Hc Hp).
    eexists _, _, []. split; [done|]. split; [apply objects_upd|].
    split; [by rewrite Hlast|]. split; [done|]. split; [done|].
    split; [by rewrite app_nil_r|]. split; [done|].
    intros c Hg. rewrite Hlast. by eapply Hcommit; [apply objects_upd|..].
  - assert (Hs0 : objects (staged this sc w) !! this = Some s) by done.
    destruct (Read_visible _ this s Hs0)
      as (s1 & l & Hr & Hl & _ & _ & _ & Hp1 & _).
    pose proof (Write_first w this sc v _ _ s1 Hsc Hc Hp Hr
                  (objects_upd _ _ _)) as HW.
    set (s2 := set_mCurrentValue v _) in HW. set (w1 := upd this s2 _) in HW.
    assert (Hrest : Write_all this values w1
              = Done tt (upd this (set_mCurrentValue
                                     (default v (last values)) s2) w1)).
    { apply (Write_all_staged values w1 this s2
               (mkScope ({[this]} ∪ mPending sc) (mCommitted sc)));
        [apply objects_upd|done|done|set_solver]. }
    eexists _, _, l. split.
    { unfold Write_all. cbn [for_each]. unfold bind at 1. unfold bind at 1.
      rewrite HW. unfold ret at 1. exact Hrest. }
    split; [apply objects_upd|]. split; [done|]. split; [done|].
    split; [done|]. split; [done|]. split; [done|].
    intros c Hg. by eapply Hcommit; [apply objects_upd|..].
Qed.

(** *** Reading what was never written *)


(** *** What calls on a setting leave alone *)

Lemma effect_on_quiet this q w w' : effect_on this true w w' -> effect_on this q w w'.
Proof.
  intros (s & s' & l & Hs & Ho & Hc & Hi & Hq).
  exists s, s', l. split_and!; try done. intros _. by apply Hq.
Qed.

Lemma same_identity_refl s : same_identity s s.
Proof. done. Qed.

Lemma same_identity_defaulted s : same_identity s (defaulted s).
Proof. split_and!; try done. apply resolved_defaulted. Qed.

Ltac identity_now s :=
  split; [reflexivity|];
  split; [reflexivity|];
  first [reflexivity | exact (resolved_defaulted s)].

Ltac effect_now s l :=
  eexists s, _, l;
  split; [eassumption|];
  split; [cbn; rewrite ?insert_insert_eq;
          first [reflexivity | symmetry; by apply insert_id]|];
  split; [cbn; rewrite ?app_nil_r, <- ?app_assoc; reflexivity|];
  split; [identity_now s|];
  first [done | intros _; done | intros; discriminate].

Lemma same_identity_trans s1 s2 s3 :
  same_identity s1 s2 -> same_identity s2 s3 -> same_identity s1 s3.
Proof.
  intros (Hp & Hf & Hr) (Hp' & Hf' & Hr'). split_and!; congruence.
Qed.

Lemma effect_on_refl this q w s :
  objects w !! this = Some s -> effect_on this q w w.
Proof. intros Hs. effect_now s (@nil (Call T)). Qed.

Lemma effect_on_trans this q w1 w2 w3 :
  effect_on this q w1 w2 -> effect_on this q w2 w3 -> effect_on this q w1 w3.
Proof.
  intros (s1 & s2 & l & Hs1 & Ho & Hc & Hi & Hq)
         (s2' & s3 & l' & Hs2 & Ho' & Hc' & Hi' & Hq').
  assert (s2' = s2) as ->.
  { rewrite Ho, lookup_insert_eq in Hs2. by injection Hs2. }
  exists s1, s3, (l ++ l'). split; [done|].
  split; [by rewrite Ho', Ho, insert_insert_eq|].
  split; [by rewrite Hc', Hc, app_assoc|].
  split; [by apply (same_identity_trans s1 s2 s3)|].
  intros ->. destruct (Hq eq_refl) as (Hg & Hsc & Hl).
  destruct (Hq' eq_refl) as (Hg' & Hsc' & Hl').
  split; [congruence|]. split; [congruence|].
  by rewrite forallb_app, Hl, Hl'.
Qed.

Lemma effect_on_exists this q w w' :
  effect_on this q w w' -> is_Some (objects w' !! this).
Proof.
  intros (s & s' & l & _ & Ho & _). rewrite Ho, lookup_insert_eq. by eexists.
Qed.

Lemma performs_quiet {A} this q (m : M T Config A) :
  performs_here this true m -> performs_here this q m.
Proof.
  intros Hm w Hw. destruct (Hm w Hw) as (a & w' & Hrun & He).
  exists a, w'. split; [done|]. by apply effect_on_quiet.
Qed.

Lemma performs_ret {A} this q (a : A) :
  performs_here this q (ret a).
Proof.
  intros w [s Hs]. exists a, w. split; [done|]. by apply (effect_on_refl _ _ _ s).
Qed.

Lemma performs_bind {A B} this q (m : M T Config A) (k : A -> M T Config B) :
  performs_here this q m -> (forall a, performs_here this q (k a)) ->
  performs_here this q (bind m k).
Proof.
  intros Hm Hk w Hw. destruct (Hm w Hw) as (a & w1 & Hrun & He).
  destruct (Hk a w1 (effect_on_exists _ _ _ _ He)) as (b & w2 & Hrun' & He').
  exists b, w2. split; [unfold bind; by rewrite Hrun|].
  by apply (effect_on_trans this q w w1 w2).
Qed.

Lemma performs_assign this (f : Setting T -> Setting T) :
  (forall s, same_identity s (f s)) ->
  performs_here this true (assign this f).
Proof.
  intros Hf w [s Hs]. rewrite (assign_eq w this s f Hs).
  eexists _, _. split; [done|].
  exists s, (f s), []. split; [done|]. split; [done|].
  split; [cbn; by rewrite app_nil_r|]. split; [apply Hf|done].
Qed.

Lemma GetDefault_performs this : performs_here this true (GetDefault this).
Proof.
  intros w [s Hs]. rewrite (GetDefault_eq w this s Hs).
  eexists _, _. split; [done|]. effect_now s (@nil (Call T)).
Qed.

Lemma ReadWithDefault_performs this d :
  performs_here this true (ReadWithDefault this d).
Proof.
  intros w [s Hs]. destruct (mValid s) eqn:Hv.
  - rewrite (ReadWithDefault_valid w this s d Hs Hv).
    eexists _, _. split; [done|]. by apply (effect_on_refl _ _ _ s).
  - destruct (gPrefs w) as [c|] eqn:Hc.
    + rewrite (ReadWithDefault_config w this s d c Hs Hv Hc).
      eexists _, _. split; [done|]. effect_now s [CallRead (T:=T) (mPath s)].
    + rewrite (ReadWithDefault_null w this s d Hs Hv Hc).
      eexists _, _. split; [done|]. by apply (effect_on_refl _ _ _ s).
Qed.

Lemma Read_performs this : performs_here this true (Read this).
Proof.
  apply performs_bind; [apply GetDefault_performs|].
  intros d. apply ReadWithDefault_performs.
Qed.

Lemma ReadWithDefault_pVar_performs this pVar d :
  performs_here this true (ReadWithDefault_pVar this pVar d).
Proof.
  intros w [s Hs]. destruct pVar as [x|].
  - destruct (mValid s) eqn:Hv.
    + rewrite (ReadWithDefault_pVar_valid w this s x d Hs Hv).
      eexists _, _. split; [done|]. by apply (effect_on_refl _ _ _ s).
    + destruct (gPrefs w) as [c|] eqn:Hc.
      * destruct (cfgRead c (mPath s)) as [v|] eqn:Hk.
        -- rewrite (ReadWithDefault_pVar_found w this s x d c v Hs Hv Hc Hk).
           eexists _, _. split; [done|].
           effect_now s [CallRead (T:=T) (mPath s)].
        -- rewrite (ReadWithDefault_pVar_absent w this s x d c Hs Hv Hc Hk).
           eexists _, _. split; [done|].
           effect_now s [CallRead (T:=T) (mPath s)].
      * rewrite (ReadWithDefault_pVar_no_store w this s x d Hs Hv Hc).
        eexists _, _. split; [done|]. effect_now s (@nil (Call T)).
  - rewrite (ReadWithDefault_pVar_null w this s d Hs).
    eexists _, _. split; [done|]. effect_now s (@nil (Call T)).
Qed.

Lemma Read_pVar_performs this pVar : performs_here this true (Read_pVar this pVar).
Proof.
  apply performs_bind; [apply GetDefault_performs|].
  intros d. apply ReadWithDefault_pVar_performs.
Qed.

Lemma DoWrite_performs this : performs_here this false (DoWrite this).
Proof.
  intros w [s Hs]. destruct (gPrefs w) as [c|] eqn:Hc.
  - destruct (cfgWrite c (mPath s) (mCurrentValue s)) as [ok c'] eqn:Hw.
    rewrite (DoWrite_config w this s c ok c' Hs Hc Hw).
    eexists _, _. split; [done|].
    effect_now s [CallWrite (mPath s) (mCurrentValue s) ok].
  - rewrite (DoWrite_null w this s Hs Hc).
    eexists _, _. split; [done|]. effect_now s (@nil (Call T)).
Qed.

Lemma Write_performs this v : performs_here this false (Write this v).
Proof.
  intros w [s Hs]. unfold Write, bind, SettingScope_Add.
  assert (Heager :
    exists a w', (match gPrefs w with
                  | Some _ =>
                      bind (assign this (set_mCurrentValue v))
                           (fun _ => DoWrite this)
                  | None => ret false
                  end) w = Done a w' /\ effect_on this false w w').
  { destruct (gPrefs w) as [c|].
    - apply (performs_bind this false); [|intros _; apply DoWrite_performs|by exists s].
      by apply performs_quiet, performs_assign.
    - eexists _, _. split; [done|]. by apply (effect_on_refl _ _ _ s). }
  assert (Hcache : forall w0, is_Some (objects w0 !! this) ->
    exists a w', (bind (assign this (set_mCurrentValue v))
                       (fun _ => ret true)) w0 = Done a w' /\
                 effect_on this false w0 w').
  { apply (performs_bind this false); [|intros _; apply performs_ret].
    by apply performs_quiet, performs_assign. }
  destruct (sCurrent w) as [sc|] eqn:Hsc; [|exact Heager].
  destruct (mCommitted sc) eqn:Hcm; [exact Heager|].
  case_bool_decide as Hp; [by apply Hcache; exists s|].
  assert (Hst : effect_on this false w (staged this sc w)).
  { effect_now s (@nil (Call T)). }
  assert (Hfirst : performs_here this false
            (bind (Read this)
               (fun x => bind (assign this (set_mPreviousValue x))
                  (fun _ => bind (assign this (set_mCurrentValue v))
                     (fun _ => ret true))))).
  { apply performs_bind; [apply performs_quiet, Read_performs|]. intros x.
    apply performs_bind; [by apply performs_quiet, performs_assign|]. intros _.
    apply performs_bind; [by apply performs_quiet, performs_assign|]. intros _.
    apply performs_ret. }
  destruct (Hfirst (staged this sc w)) as (a & w' & Hrun & He); [by exists s|].
  exists a, w'. split; [exact Hrun|].
  by apply (effect_on_trans this false w (staged this sc w) w').
Qed.

Lemma invoke_performs this (m : Method T) :
  performs_here this (reads_only m) (invoke this m).
Proof.
  destruct m; cbn [invoke reads_only];
    try (apply performs_bind; [|intros ?; apply performs_ret]).
  - apply GetDefault_performs.
  - apply Read_performs.
  - apply ReadWithDefault_performs.
  - apply Read_pVar_performs.
  - apply ReadWithDefault_pVar_performs.
  - apply Write_performs.
  - apply performs_bind; [apply performs_quiet, GetDefault_performs|].
    intros d. apply Write_performs.
  - apply DoWrite_performs.
  - by apply performs_assign.
  - intros w [s Hs]. rewrite (Rollback_eq w this s Hs).
    eexists _, _. split; [done|]. effect_now s (@nil (Call T)).
Qed.

Lemma invoke_all_effect (l : list (nat * Method T)) : forall w,
  (forall a m, (a, m) ∈ l -> is_Some (objects w !! a)) ->
  exists w' k,
    invoke_all l w = Done tt w' /\
    calls w' = calls w ++ k /\
    (forall p, p ∉ l.*1 -> objects w' !! p = objects w !! p) /\
    (forall p s, objects w !! p = Some s ->
       exists s', objects w' !! p = Some s' /\ same_identity s s') /\
    (forallb (fun x => reads_only x.2) l = true ->
     gPrefs w' = gPrefs w /\ sCurrent w' = sCurrent w /\
     forallb isRead k = true).
Proof.
  induction l as [|[a m] l IH]; intros w Hex.
  - exists w, []. cbn. rewrite app_nil_r. split_and!; try done.
    intros p s Hs. by exists s.
  - destruct (invoke_performs a m w) as ([] & w1 & Hrun & He).
    { apply (Hex a m). by left. }
    destruct He as (s & s1 & l1 & Hs & Ho & Hc & Hi & Hq).
    destruct (IH w1) as (w' & k & Hrun' & Hc' & Hfr & Hid & Hqu).
    { intros a' m' Hin. rewrite Ho. apply lookup_insert_is_Some'.
      right. apply (Hex a' m'). by right. }
    exists w', (l1 ++ k). split.
    { unfold invoke_all. cbn [for_each]. unfold bind at 1. by rewrite Hrun. }
    split; [by rewrite Hc', Hc, app_assoc|]. split.
    { intros p Hp. cbn in Hp. apply not_elem_of_cons in Hp as [Hpa Hpl].
      rewrite (Hfr p Hpl), Ho. by apply lookup_insert_ne. }
    split.
    { intros p s0 Hs0. destruct (decide (p = a)) as [->|Hpa].
      - rewrite Hs in Hs0. injection Hs0 as <-.
        destruct (Hid a s1) as (s' & Hs' & Hi'); [by rewrite Ho, lookup_insert_eq|].
        exists s'. split; [done|]. by apply (same_identity_trans s s1 s').
      - apply Hid. rewrite Ho. by rewrite lookup_insert_ne. }
    cbn [forallb snd]. intros [Hm Hl]%andb_prop.
    cbn in Hm. destruct (Hq Hm) as (Hg & Hsc & Hr).
    destruct (Hqu Hl) as (Hg' & Hsc' & Hr').
    split; [congruence|]. split; [congruence|].
    by rewrite forallb_app, Hr, Hr'.
Qed.

(** X12.  A setting with a static default, one constructed from a value
    and not from a default-computing function, keeps its path and its
    default through any sequence of calls of member functions on settings
    with static defaults: [GetDefault()] returns [mDefaultValue], the same
    before and after, and changes nothing. *)
Theorem calls_keep_path_and_default (l : list (nat * Method T)) w p s :
  (forall a m, (a, m) ∈ l ->
     exists t, objects w !! a = Some t /\ mFunction t = None) ->
  objects w !! p = Some s -> mFunction s = None ->
  exists w' s',
    invoke_all l w = Done tt w' /\
    objects w' !! p = Some s' /\ mPath s' = mPath s /\
    mFunction s' = None /\ mDefaultValue s' = mDefaultValue s /\
    GetDefault p w = Done (mDefaultValue s) w /\
    GetDefault p w' = Done (mDefaultValue s) w'.
Proof.
  intros Hex Hs Hf.
  destruct (invoke_all_effect l w) as (w' & k & Hrun & _ & _ & Hid & _).
  { intros a m Hin. destruct (Hex a m Hin) as (t & Ht & _). by exists t. }
  destruct (Hid p s Hs) as (s' & Hs' & Hp & Hf' & Hr).
  rewrite Hf in Hf'.
  assert (Hd : mDefaultValue s' = mDefaultValue s).
  { unfold resolved in Hr. by rewrite Hf, Hf' in Hr. }
  assert (Hget : forall w0 s0, objects w0 !! p = Some s0 ->
            mFunction s0 = None ->
            GetDefault p w0 = Done (mDefaultValue s0) w0).
  { intros w0 s0 Hs0 Hf0. rewrite (GetDefault_eq w0 p s0 Hs0).
    rewrite (set_mDefaultValue_same s0 Hf0), (upd_same w0 p s0 Hs0).
    unfold resolved. by rewrite Hf0. }
  exists w', s'. split; [done|]. split; [done|]. split; [done|].
  split; [done|]. split; [done|]. split; [by apply Hget|].
  rewrite <- Hd. by apply Hget.
Qed.

(** X13.  Calls of member functions on other settings, all of them with
    static defaults, change nothing of a setting: its cached value,
    validity flag and rollback value are as before. *)
Theorem calls_on_others_leave_setting (l : list (nat * Method T)) w p :
  (forall a m, (a, m) ∈ l ->
     exists t, objects w !! a = Some t /\ mFunction t = None) ->
  p ∉ l.*1 ->
  exists w',
    invoke_all l w = Done tt w' /\ objects w' !! p = objects w !! p.
Proof.
  intros Hex Hp.
  destruct (invoke_all_effect l w) as (w' & k & Hrun & _ & Hfr & _).
  { intros a m Hin. destruct (Hex a m Hin) as (t & Ht & _). by exists t. }
  exists w'. split; [done|]. by apply Hfr.
Qed.

(** X14.  A sequence of calls other than [Write], [Reset] and [Commit]
    leaves the store and the scope as they are; the only calls it makes on
    the store are reads. *)
Theorem reading_calls_leave_store (l : list (nat * Method T)) w :
  (forall a m, (a, m) ∈ l -> is_Some (objects w !! a)) ->
  forallb (fun x => reads_only x.2) l = true ->
  exists w' k,
    invoke_all l w = Done tt w' /\
    gPrefs w' = gPrefs w /\ sCurrent w' = sCurrent w /\
    calls w' = calls w ++ k /\ forallb isRead k = true.
Proof.
  intros Hex Hro.
  destruct (invoke_all_effect l w Hex) as (w' & k & Hrun & Hc & _ & _ & Hq).
  destruct (Hq Hro) as (Hg & Hsc & Hr). by exists w', k.
Qed.

(** *** Construction of enumeration settings *)

(** X15.  The constructor of [EnumSettingBase] completes exactly when both
    documented preconditions hold, the default row below the size of the
    symbol table and as many integer codes as symbols; otherwise it stops
    on a failed assertion.  It leaves the state as it is, and the object
    built is not yet migrated. *)
Theorem EnumSettingBase_ctor_completes w key symbols defaultSymbol
    (intValues : list Z) oldKey :
  Key_ok key w ->
  if bool_decide (defaultSymbol < to_long (vector_size symbols)
                  /\ length intValues = length symbols)
  then exists e,
      EnumSettingBase_ctor key symbols defaultSymbol intValues oldKey w
      = Done e w /\
      mSymbols (base e) = symbols /\ mIntValues e = intValues /\
      mDefaultSymbol (base e) = defaultSymbol /\ mOldKey e = oldKey /\
      mMigrated (base e) = false
  else EnumSettingBase_ctor key symbols defaultSymbol intValues oldKey w
       = Stop AssertionFailed.
Proof.
  intros Hk.
  destruct (ChoiceSetting_ctor_eq w key symbols defaultSymbol Hk)
    as (ch & Hsym & Hd & Hm & Hctor).
  unfold EnumSettingBase_ctor, bind. rewrite Hctor.
  destruct (decide (defaultSymbol < to_long (vector_size symbols)))
    as [Hlt|Hlt].
  - rewrite (bool_decide_eq_true_2 _ Hlt). unfold assert, ret. cbn.
    rewrite Hsym.
    destruct (decide (length intValues = length symbols)) as [Hlen|Hlen].
    + rewrite (bool_decide_eq_true_2 (_ /\ _)) by done.
      rewrite bool_decide_eq_true_2 by (unfold vector_size; by rewrite Hlen).
      eexists. split; [done|]. done.
    + rewrite (bool_decide_eq_false_2 (_ /\ _)) by (by intros [_ ?]).
      rewrite bool_decide_eq_false_2; [done|].
      unfold vector_size. lia.
  - rewrite (bool_decide_eq_false_2 _ Hlt).
    by rewrite (bool_decide_eq_false_2 (_ /\ _)) by (by intros [? _]).
Qed.

End SettingsMore.

(** ** Concrete runs of the further properties *)

Ltac targets_exist :=
  let a := fresh "a" in let m := fresh "m" in let Hin := fresh "Hin" in
  let Heq := fresh "Heq" in
  intros a m Hin;
  repeat (apply elem_of_cons in Hin as [Heq|Hin];
          [injection Heq as -> ->; eexists; reflexivity|]);
  by apply elem_of_nil in Hin.

Ltac targets_static :=
  let a := fresh "a" in let m := fresh "m" in let Hin := fresh "Hin" in
  let Heq := fresh "Heq" in
  intros a m Hin;
  repeat (apply elem_of_cons in Hin as [Heq|Hin];
          [injection Heq as -> ->; eexists; split; reflexivity|]);
  by apply elem_of_nil in Hin.

(** X1, witness: 4 is cached as valid and the store holds 8; after the
    read with a null pointer the setting reads 8. *)
Lemma ReadWithDefault_pVar_null_discards_cache_witness :
  objects (worldCached (Some storeA8)) !! 1%nat = Some settingA_cached /\
  exists w1 w2,
    ReadWithDefault_pVar 1%nat None 5 (worldCached (Some storeA8))
    = Done (false, None) w1 /\
    Read 1%nat w1 = Done 8 w2.
Proof.
  split; [reflexivity|].
  destruct (ReadWithDefault_pVar_null_discards_cache
              (worldCached (Some storeA8)) 1%nat settingA_cached storeA8 5
              eq_refl eq_refl) as (w1 & w2 & H1 & _ & H2 & _).
  exists w1, w2. split; [exact H1|exact H2].
Defined.

(** X2, witness: nothing cached, nothing stored: false, and the variable
    holds the fallback 6. *)
Lemma ReadWithDefault_pVar_defined_witness :
  objects (worldA (Some storeEmpty)) !! 1%nat = Some settingA /\
  exists w',
    ReadWithDefault_pVar 1%nat (Some 0) 6 (worldA (Some storeEmpty))
    = Done (false, Some 6) w'.
Proof.
  split; [reflexivity|].
  destruct (ReadWithDefault_pVar_defined (worldA (Some storeEmpty)) 1%nat
              settingA 0 6 eq_refl)
    as (ok & v & w' & s' & Hrun & _ & _ & _ & Hfalse & Hiff).
  destruct ok.
  - exfalso. destruct (proj1 Hiff eq_refl) as [Hv|(c & Hc & Hsome)].
    + discriminate Hv.
    + injection Hc as <-. destruct Hsome as [x Hx]. discriminate Hx.
  - destruct (Hfalse eq_refl) as [-> _]. by exists w'.
Defined.

(** X3, witness: a fresh setting with default 5 and no store. *)
Lemma Read_overloads_without_store_witness :
  objects (worldA None) !! 1%nat = Some settingA /\
  mValid settingA = false /\ gPrefs (worldA None) = None /\
  exists w1 w2,
    Read_pVar 1%nat (Some 0) (worldA None) = Done (false, Some 5) w1 /\
    Read 1%nat (worldA None) = Done 0 w2.
Proof.
  split; [reflexivity|]. split; [reflexivity|]. split; [reflexivity|].
  exact (Read_overloads_without_store (worldA None) 1%nat settingA 0
           eq_refl eq_refl eq_refl).
Defined.


(** X5, witness: 4 is cached and the store holds 8. *)
Lemma Invalidate_then_Read_witness :
  objects (worldCached (Some storeA8)) !! 1%nat = Some settingA_cached /\
  exists w1 w2,
    Invalidate 1%nat (worldCached (Some storeA8)) = Done tt w1 /\
    Read 1%nat w1 = Done 8 w2.
Proof.
  split; [reflexivity|].
  destruct (Invalidate_then_Read (worldCached (Some storeA8)) 1%nat
              settingA_cached storeA8 eq_refl eq_refl)
    as (w1 & w2 & H1 & _ & _ & H2 & _).
  exists w1, w2. split; [exact H1|exact H2].
Defined.


(** X7, witness: with no store, committing a valid cache of 4 fails and
    leaves 4 cached as invalid. *)
Lemma Commit_sets_validity_witness :
  objects (worldCached None) !! 1%nat = Some settingA_cached /\
  mValid settingA_cached = true /\
  exists w' s',
    Commit 1%nat (worldCached None) = Done false w' /\
    objects w' !! 1%nat = Some s' /\
    mValid s' = false /\ mCurrentValue s' = 4.
Proof.
  split; [reflexivity|]. split; [reflexivity|].
  destruct (Commit_sets_validity (worldCached None) 1%nat settingA_cached
              eq_refl) as (ok & w' & s' & Hrun & Hs' & Hv & Hc & _ & Hok & _).
  cbn in Hok. rewrite Hok in Hrun, Hv. exists w', s'.
  split; [exact Hrun|]. split; [exact Hs'|]. split; [exact Hv|exact Hc].
Defined.

(** X8, witness: 9 written to a fresh setting over an empty store. *)
Lemma Write_Invalidate_Read_witness :
  objects (worldA (Some storeEmpty)) !! 1%nat = Some settingA /\
  idle (worldA (Some storeEmpty)) = true /\
  cfgWrite storeEmpty (mPath settingA) 9 = (true, storeA9) /\
  cfgRead storeA9 (mPath settingA) = Some 9 /\
  exists w1 w2 w3,
    Write 1%nat 9 (worldA (Some storeEmpty)) = Done true w1 /\
    Invalidate 1%nat w1 = Done tt w2 /\
    Read 1%nat w2 = Done 9 w3.
Proof.
  assert (Hw : cfgWrite storeEmpty (mPath settingA) 9 = (true, storeA9))
    by reflexivity.
  assert (Hr : cfgRead storeA9 (mPath settingA) = Some 9) by reflexivity.
  split; [reflexivity|]. split; [reflexivity|]. split; [exact Hw|].
  split; [exact Hr|].
  exact (Write_Invalidate_Read (worldA (Some storeEmpty)) 1%nat settingA
           storeEmpty storeA9 9 eq_refl eq_refl eq_refl Hw Hr).
Defined.


(** X10, witness: 9, 7 and 6 written in a new scope: 6 is cached, 5 is the
    rollback value, and 6 is what the commit writes. *)
Lemma staged_writes_keep_first_commit_last_witness :
  objects worldScope !! 1%nat = Some settingA /\
  sCurrent worldScope = Some (mkScope ∅ false) /\
  exists w1 s1 ok w2,
    Write_all 1%nat [9; 7; 6] worldScope = Done tt w1 /\
    objects w1 !! 1%nat = Some s1 /\
    mCurrentValue s1 = 6 /\ mPreviousValue s1 = 5 /\
    Commit 1%nat w1 = Done ok w2 /\
    calls w2 = calls w1 ++ [CallWrite "/GUI/A" 6 ok].
Proof.
  split; [reflexivity|]. split; [reflexivity|].
  destruct (staged_writes_keep_first_commit_last worldScope 1%nat settingA
              (mkScope ∅ false) 9 [7; 6] eq_refl eq_refl eq_refl)
    as (w1 & s1 & l & Hrun & Hs1 & Hcur & Hprev & _ & _ & _ & Hcommit).
  destruct (Hcommit storeEmpty eq_refl) as (ok & w2 & HC & Hcalls).
  rewrite bool_decide_eq_false_2 in Hprev by (cbn; set_solver).
  exists w1, s1, ok, w2. split; [exact Hrun|]. split; [exact Hs1|].
  split; [exact Hcur|]. split; [exact Hprev|]. split; [exact HC|exact Hcalls].
Defined.


(** X12, witness: a read, a write to the other setting, a reset and an
    invalidation leave the first setting its path and its default 5. *)
Lemma calls_keep_path_and_default_witness :
  objects (worldAB (Some storeEmpty)) !! 1%nat = Some settingA /\
  mFunction settingA = None /\
  exists w' s',
    invoke_all callsBoth (worldAB (Some storeEmpty)) = Done tt w' /\
    objects w' !! 1%nat = Some s' /\ mPath s' = "/GUI/A" /\
    GetDefault 1%nat w' = Done 5 w'.
Proof.
  split; [reflexivity|]. split; [reflexivity|].
  destruct (calls_keep_path_and_default callsBoth
              (worldAB (Some storeEmpty)) 1%nat settingA)
    as (w' & s' & Hrun & Hs' & Hp & _ & _ & _ & Hd);
    [targets_static|reflexivity|reflexivity|].
  exists w', s'. split; [exact Hrun|]. split; [exact Hs'|].
  split; [exact Hp|exact Hd].
Defined.

(** X13, witness: calls on the second setting leave the first as
    constructed. *)
Lemma calls_on_others_leave_setting_witness :
  (1%nat ∉ callsSecond.*1) /\
  exists w',
    invoke_all callsSecond (worldAB (Some storeEmpty)) = Done tt w' /\
    objects w' !! 1%nat = Some settingA.
Proof.
  assert (Hp : 1%nat ∉ callsSecond.*1).
  { cbn. intros Hin.
    repeat (apply elem_of_cons in Hin as [Heq|Hin]; [discriminate Heq|]).
    by apply elem_of_nil in Hin. }
  split; [exact Hp|].
  destruct (calls_on_others_leave_setting callsSecond
              (worldAB (Some storeEmpty)) 1%nat)
    as (w' & Hrun & Hsame); [targets_static|exact Hp|].
  exists w'. split; [exact Hrun|]. rewrite Hsame. reflexivity.
Defined.

(** X14, witness: reads of several kinds, and a rollback, over the store
    that holds 8. *)
Lemma reading_calls_leave_store_witness :
  (forallb (fun x => reads_only x.2) callsReading = true) /\
  exists w' k,
    invoke_all callsReading (worldA (Some storeA8)) = Done tt w' /\
    gPrefs w' = Some storeA8 /\ sCurrent w' = None /\
    calls w' = k /\ forallb isRead k = true.
Proof.
  split; [reflexivity|].
  destruct (reading_calls_leave_store callsReading (worldA (Some storeA8)))
    as (w' & k & Hrun & Hg & Hsc & Hc & Hr); [targets_exist|reflexivity|].
  exists w', k. split; [exact Hrun|]. split; [exact Hg|].
  split; [exact Hsc|]. split; [exact Hc|exact Hr].
Defined.

(** X15, witness: two symbols with the integer codes 10 and 20 are
    accepted; with one code only the construction stops. *)
Lemma EnumSettingBase_ctor_completes_witness :
  Key_ok (KeyPath "/GUI/Scale") (emptyWorld None) /\
  (exists e,
      EnumSettingBase_ctor (KeyPath "/GUI/Scale") twoSymbols 0 [10; 20]
        "/GUI/OldScale" (emptyWorld None) = Done e (emptyWorld None) /\
      mIntValues e = [10; 20] /\ mMigrated (base e) = false) /\
  EnumSettingBase_ctor (KeyPath "/GUI/Scale") twoSymbols 0 [10]
    "/GUI/OldScale" (emptyWorld None) = Stop AssertionFailed.
Proof.
  split; [exact I|]. split.
  - pose proof (EnumSettingBase_ctor_completes (emptyWorld None)
                  (KeyPath "/GUI/Scale") twoSymbols 0 [10; 20]
                  "/GUI/OldScale" I) as Hc.
    rewrite bool_decide_eq_true_2 in Hc by (split; reflexivity).
    destruct Hc as (e & Hrun & _ & Hi & _ & _ & Hm).
    exists e. split; [exact Hrun|]. split; [exact Hi|exact Hm].
  - pose proof (EnumSettingBase_ctor_completes (emptyWorld None)
                  (KeyPath "/GUI/Scale") twoSymbols 0 [10]
                  "/GUI/OldScale" I) as Hc.
    rewrite bool_decide_eq_false_2 in Hc by (intros [_ Hlen]; discriminate Hlen).
    exact Hc.
Defined.
